(** * The AI suggestion engine of the editor: streaming adapter and
      position-tracked insertion

    Shallow embedding of
    - [generateContinuationStream] and [modifyTextStream] (the streaming
      source adapter, lib/ai), and
    - the [Editor] component's suggestion handlers
      (src/components/Editor/Editor.tsx): the [apiText] effect,
      [handleAccept], [handleReject], [handleModify],
      [handleSelectionAiAction] and the view's [dispatchTransaction].

    JavaScript strings are sequences of UTF-16 code units; ProseMirror
    positions count the same units, so a string is a list of code units and a
    length is [length]. *)

From Stdlib Require Import List Arith Lia Bool NArith ZArith.
From Stdlib Require Ascii String.
Import ListNotations.

Set Implicit Arguments.

(* ================================================================== *)
(** ** JavaScript strings *)

Module Js.

(** A UTF-16 code unit. *)
Definition char := N.
Definition str := list char.

Definition of_ascii (a : Ascii.ascii) : char := Ascii.N_of_ascii a.

(** A Rocq string literal, read as a JavaScript string. *)
Fixpoint lit (s : String.string) : str :=
  match s with
  | String.EmptyString => []
  | String.String a s' => of_ascii a :: lit s'
  end.

Definition space : char := 32%N.

(** The class [[\r\n]]. *)
Definition is_newline (c : char) : bool :=
  (c =? 10)%N || (c =? 13)%N.

(** The class [\s] of ECMAScript: white space and line terminators. *)
Definition is_space (c : char) : bool :=
  ((9 <=? c) && (c <=? 13))%N
  || (c =? 32)%N || (c =? 160)%N || (c =? 5760)%N
  || ((8192 <=? c) && (c <=? 8202))%N
  || (c =? 8232)%N || (c =? 8233)%N || (c =? 8239)%N
  || (c =? 8287)%N || (c =? 12288)%N || (c =? 65279)%N.

(** [s.replace(/[\r\n]+/g, " ")]: every maximal run of line breaks becomes
    one space.  [in_run] tells that the previous unit belonged to a run
    whose space has been written already. *)
Fixpoint replace_newlines (in_run : bool) (s : str) : str :=
  match s with
  | [] => []
  | c :: s' =>
      if is_newline c
      then if in_run then replace_newlines true s'
           else space :: replace_newlines true s'
      else c :: replace_newlines false s'
  end.

(** [s.replace(/\s{2,}/g, " ")]: every maximal run of two or more white
    space units becomes one space; a white space unit on its own stays. *)
Fixpoint replace_spaces (in_run : bool) (s : str) : str :=
  match s with
  | [] => []
  | c :: s' =>
      if is_space c
      then if in_run then replace_spaces true s'
           else match s' with
                | d :: _ =>
                    if is_space d
                    then space :: replace_spaces true s'
                    else c :: replace_spaces false s'
                | [] => [c]
                end
      else c :: replace_spaces false s'
  end.

(** [s.replace(/[\r\n]+/g, " ").replace(/\s{2,}/g, " ")], the cleaning
    step the adapter and the editor both apply. *)
Definition clean (s : str) : str :=
  replace_spaces false (replace_newlines false s).

Definition is_high_surrogate (c : char) : bool :=
  ((55296 <=? c) && (c <=? 56319))%N.
Definition is_low_surrogate (c : char) : bool :=
  ((56320 <=? c) && (c <=? 57343))%N.

(** [for (const char of s)]: the string iterator walks code points, so a
    surrogate pair comes out as one two-unit string. *)
Fixpoint code_points (s : str) : list str :=
  match s with
  | [] => []
  | c :: s' =>
      match s' with
      | d :: s'' =>
          if is_high_surrogate c && is_low_surrogate d
          then [c; d] :: code_points s''
          else [c] :: code_points s'
      | [] => [[c]]
      end
  end.

(** Truthiness of a string: [if (s)]. *)
Definition truthy (s : str) : bool :=
  match s with [] => false | _ :: _ => true end.

(** [s.slice(n)] for [0 <= n]. *)
Definition slice (n : nat) (s : str) : str := skipn n s.

(** No line break is left and no two white space units are adjacent. *)
Fixpoint no_space_pair (s : str) : bool :=
  match s with
  | [] => true
  | c :: s' =>
      match s' with
      | d :: _ => negb (is_space c && is_space d) && no_space_pair s'
      | [] => true
      end
  end.

Definition normalized (s : str) : Prop :=
  forallb (fun c => negb (is_newline c)) s = true /\ no_space_pair s = true.


End Js.

(* ================================================================== *)
(** ** White space normalisation, as the specification words it *)

Module Normalize.








End Normalize.

(* ================================================================== *)
(** ** The streaming source adapter (lib/ai) *)

Module Adapter.

(** How the model's response stream ends: it is exhausted, or awaiting
    the next chunk raises. *)
Inductive Ending (E : Type) : Type :=
| Completed
| Failed (e : E).
Arguments Completed {E}.

(** What consuming a generator to its end observes: the values it
    yielded, in order, and whether it returned or threw. *)
Record Run (E : Type) : Type := mkRun {
  yielded : list Js.str;
  ending : Ending E
}.

Section Streams.
Variable E : Type.

(** The body of [for await (const chunk of result.stream)] for one
    chunk whose [chunk.text()] is [chunkText]. *)
Definition emit_chunk (chunkText : Js.str) : list Js.str :=
  if Js.truthy chunkText
  then Js.code_points (Js.clean chunkText)
  else [].

(** [generateContinuationStream]: the prompt only decides what the
    model answers; the answer is the list of chunk texts [chunks] and
    the way the stream ends.  [catch (error) { ...; throw error }]
    hands the same error on. *)
Definition generateContinuationStream
    (chunks : list Js.str) (e : Ending E) : Run E :=
  {| yielded := flat_map emit_chunk chunks;
     ending := match e with
               | Completed => Completed
               | Failed err => Failed err
               end |}.

(** [modifyTextStream] has the same loop and the same handler. *)
Definition modifyTextStream
    (chunks : list Js.str) (e : Ending E) : Run E :=
  {| yielded := flat_map emit_chunk chunks;
     ending := match e with
               | Completed => Completed
               | Failed err => Failed err
               end |}.
End Streams.

End Adapter.

(* ================================================================== *)
(** ** The document collaborator

    The editor creates its document as one paragraph holding one text node
    ([schema.node("doc", null, [schema.node("paragraph", null, [text])])]).
    The model keeps to such documents: the content of the paragraph is a
    list of code units, each with its [em] mark, which the editor uses as
    the sign of generated text.  ProseMirror position [0] lies before the
    paragraph, position [i + 1] before the [i]-th unit and
    [doc.content.size = length + 2]. *)

Module PM.

Record Unit : Type := mkUnit { code : Js.char; em : bool }.

Definition Doc := list Unit.

(** [doc.textContent]. *)
Definition text (d : Doc) : Js.str := map code d.

(** [doc.content.size]. *)
Definition content_size (d : Doc) : nat := length d + 2.

(** [schema.text(s, marks)] as paragraph content. *)
Definition text_node (s : Js.str) (marked : bool) : Doc :=
  map (fun c => mkUnit c marked) s.

(** [doc.textBetween(from, to)] inside the paragraph ([1 <= from]). *)
Definition textBetween (from to : nat) (d : Doc) : Js.str :=
  text (firstn (to - from) (skipn (from - 1) d)).

(** A position at which text can stand. *)
Definition in_paragraph (pos : nat) (d : Doc) : bool :=
  (1 <=? pos) && (pos <=? length d + 1).

(** The operations the editor puts into a transaction. *)
Inductive Step : Type :=
| Insert (pos : nat) (s : Js.str) (marked : bool)
    (* tr.insert(pos, schema.text(s, marked ? [em] : [])) *)
| Delete (from to : nat)                 (* tr.delete(from, to) *)
| RemoveMark (from to : nat)             (* tr.removeMark(from, to, em) *)
| SetSelection (pos : nat).
    (* tr.setSelection(TextSelection.create(tr.doc, pos)) *)

Definition Transaction := list Step.

Definition Selection : Type := nat * nat.      (* from, to *)

(** Positions are mapped through an edit with the default bias
    (to the right of inserted content). *)
Definition map_insert (pos n p : nat) : nat :=
  if p <? pos then p else p + n.

Definition map_delete (from to p : nat) : nat :=
  if p <=? from then p
  else if to <=? p then p - (to - from)
  else from.

Fixpoint remove_em (pos from to : nat) (d : Doc) : Doc :=
  match d with
  | [] => []
  | u :: d' =>
      (if (from <=? pos) && (pos <? to) then mkUnit (code u) false else u)
        :: remove_em (S pos) from to d'
  end.

(** Whether a unit in [from, to) carries the mark, that is whether
    [removeMark] adds a step. *)
Fixpoint has_em (pos from to : nat) (d : Doc) : bool :=
  match d with
  | [] => false
  | u :: d' =>
      ((from <=? pos) && (pos <? to) && em u) || has_em (S pos) from to d'
  end.

(** State of a transaction under construction: its document, its
    selection, and whether it holds a step ([tr.docChanged]). *)
Record Tr : Type := mkTr {
  tr_doc : Doc;
  tr_selection : Selection;
  docChanged : bool
}.

(** One operation.  [None]: the position does not lie inside the
    paragraph.  Beyond [content_size] ProseMirror raises a
    [RangeError], and so it does for an empty text node; at position 0
    and at [content_size] itself it does not raise but builds a
    document that is no longer a single paragraph, which this model of
    one paragraph does not follow (a session on a selection of the
    whole document is such a case). *)
Definition step (s : Step) (t : Tr) : option Tr :=
  let d := tr_doc t in
  let '(sf, st) := tr_selection t in
  match s with
  | Insert pos s marked =>
      if in_paragraph pos d && Js.truthy s
      then Some (mkTr (firstn (pos - 1) d ++ text_node s marked
                         ++ skipn (pos - 1) d)
                      (map_insert pos (length s) sf,
                       map_insert pos (length s) st)
                      true)
      else None
  | Delete from to =>
      if from =? to then Some t       (* nothing to replace: no step *)
      else if (1 <=? from) && (from <? to) && (to <=? length d + 1)
      then Some (mkTr (firstn (from - 1) d ++ skipn (to - 1) d)
                      (map_delete from to sf, map_delete from to st)
                      true)
      else None
  | RemoveMark from to =>
      Some (mkTr (remove_em 1 from to d) (sf, st)
              (docChanged t || has_em 1 from to d))
  | SetSelection pos =>
      if in_paragraph pos d
      then Some (mkTr d (pos, pos) (docChanged t))
      else None
  end.

Fixpoint steps (tr : Transaction) (t : Tr) : option Tr :=
  match tr with
  | [] => Some t
  | s :: tr' =>
      match step s t with
      | Some t' => steps tr' t'
      | None => None
      end
  end.

End PM.

(* ================================================================== *)
(** ** The Editor component *)

Module Editor.

Inductive AiAction : Type :=
| shorten | expand | rephrase | formal | casual
| summarize | improve | brainstorm.

(** The view's state, the component's refs and the React state the
    suggestion handlers read.  The view is mounted
    ([viewRef.current] is set). *)
Record State : Type := mkState {
  doc : PM.Doc;                                  (* view.state.doc *)
  selection : PM.Selection;                      (* view.state.selection *)
  lastInsertedLengthRef : nat;
  aiTextStartPosRef : option nat;
  selectionRangeRef : option (nat * nat);
  isReplacingSelectionRef : bool;
  originalTextRef : Js.str;
  selectedText : Js.str;
  showToolbar : bool;
  showSelectionToolbar : bool
}.

(** What a handler does that is seen outside of it, in program order. *)
Inductive Event : Type :=
| Dispatched (tr : PM.Transaction)               (* view.dispatch(tr) *)
| WriteStartPos (v : option nat)
| WriteLastInserted (n : nat)
| WriteSelectionRange (r : option (nat * nat))
| WriteIsReplacing (b : bool)
| WriteOriginalText (s : Js.str)
| OnUpdate (docText : Js.str)
| OnGenerate (action : AiAction) (text : Js.str)
| OnAccept
| OnReject
| OnModify (action : AiAction).

(** How a handler ends.  [Threw]: a transaction of the handler could
    not be carried out inside the paragraph (see [PM.step]), and the
    handler is followed no further; what it wrote before stands.  The
    properties that describe a document after an edit assume positions
    inside the paragraph. *)
Inductive Outcome (A : Type) : Type :=
| Returned (a : A)
| Threw.
Arguments Threw {A}.

Record Result (A : Type) : Type := mkResult {
  outcome : Outcome A;
  final : State;
  events : list Event
}.

(** Handlers run in a state and event-log monad; an exception ends the
    handler and keeps what was written before it. *)
Definition M (A : Type) : Type := State -> Result A.

Definition ret {A} (a : A) : M A :=
  fun st => mkResult (Returned a) st [].

Definition bind {A B} (m : M A) (k : A -> M B) : M B :=
  fun st =>
    let r := m st in
    match outcome r with
    | Returned a =>
        let r' := k a (final r) in
        mkResult (outcome r') (final r') (events r ++ events r')
    | Threw => mkResult Threw (final r) (events r)
    end.

Declare Scope editor_scope.
Delimit Scope editor_scope with editor.
Notation "x <- m ;; k" := (bind m (fun x => k))
  (at level 61, m at next level, right associativity) : editor_scope.
Notation "m ;; k" := (bind m (fun _ => k))
  (at level 61, right associativity) : editor_scope.
Local Open Scope editor_scope.

Definition get : M State := fun st => mkResult (Returned st) st [].

Definition emit (e : Event) : M unit :=
  fun st => mkResult (Returned tt) st [e].

Definition set_aiTextStartPos (v : option nat) : M unit :=
  fun st =>
    mkResult (Returned tt)
      (mkState (doc st) (selection st) (lastInsertedLengthRef st) v
         (selectionRangeRef st) (isReplacingSelectionRef st)
         (originalTextRef st) (selectedText st) (showToolbar st)
         (showSelectionToolbar st))
      [WriteStartPos v].

Definition set_lastInsertedLength (n : nat) : M unit :=
  fun st =>
    mkResult (Returned tt)
      (mkState (doc st) (selection st) n (aiTextStartPosRef st)
         (selectionRangeRef st) (isReplacingSelectionRef st)
         (originalTextRef st) (selectedText st) (showToolbar st)
         (showSelectionToolbar st))
      [WriteLastInserted n].

Definition set_selectionRange (r : option (nat * nat)) : M unit :=
  fun st =>
    mkResult (Returned tt)
      (mkState (doc st) (selection st) (lastInsertedLengthRef st)
         (aiTextStartPosRef st) r (isReplacingSelectionRef st)
         (originalTextRef st) (selectedText st) (showToolbar st)
         (showSelectionToolbar st))
      [WriteSelectionRange r].

Definition set_isReplacingSelection (b : bool) : M unit :=
  fun st =>
    mkResult (Returned tt)
      (mkState (doc st) (selection st) (lastInsertedLengthRef st)
         (aiTextStartPosRef st) (selectionRangeRef st) b
         (originalTextRef st) (selectedText st) (showToolbar st)
         (showSelectionToolbar st))
      [WriteIsReplacing b].

Definition set_originalText (s : Js.str) : M unit :=
  fun st =>
    mkResult (Returned tt)
      (mkState (doc st) (selection st) (lastInsertedLengthRef st)
         (aiTextStartPosRef st) (selectionRangeRef st)
         (isReplacingSelectionRef st) s (selectedText st) (showToolbar st)
         (showSelectionToolbar st))
      [WriteOriginalText s].

Definition setShowToolbar (b : bool) : M unit :=
  fun st =>
    mkResult (Returned tt)
      (mkState (doc st) (selection st) (lastInsertedLengthRef st)
         (aiTextStartPosRef st) (selectionRangeRef st)
         (isReplacingSelectionRef st) (originalTextRef st)
         (selectedText st) b (showSelectionToolbar st))
      [].

Definition setShowSelectionToolbar (b : bool) : M unit :=
  fun st =>
    mkResult (Returned tt)
      (mkState (doc st) (selection st) (lastInsertedLengthRef st)
         (aiTextStartPosRef st) (selectionRangeRef st)
         (isReplacingSelectionRef st) (originalTextRef st)
         (selectedText st) (showToolbar st) b)
      [].

(** Building [tr] from [view.state.tr] and [view.dispatch(tr)], which
    runs the view's [dispatchTransaction]: the new state is installed,
    [onUpdate] is told when the document changed, and the selection
    toolbar follows the new selection ([!empty && to - from > 3]). *)
Definition dispatch (tr : PM.Transaction) : M unit :=
  fun st =>
    match PM.steps tr (PM.mkTr (doc st) (selection st) false) with
    | None => mkResult Threw st []
    | Some t =>
        let d := PM.tr_doc t in
        let '(from, to) := PM.tr_selection t in
        let wide := negb (from =? to) && (3 <? to - from) in
        mkResult (Returned tt)
          (mkState d (from, to) (lastInsertedLengthRef st)
             (aiTextStartPosRef st) (selectionRangeRef st)
             (isReplacingSelectionRef st) (originalTextRef st)
             (if wide then PM.textBetween from to d else [])
             (showToolbar st) wide)
          (Dispatched tr
             :: if PM.docChanged t then [OnUpdate (PM.text d)] else [])
    end.

(** The effect on [apiText] ("Handle streaming AI text").  [None] is
    [null] or [undefined]. *)
Definition apiTextEffect (apiText : option Js.str) : M unit :=
  match apiText with
  | None => set_lastInsertedLength 0
  | Some t =>
      if Js.truthy t then
        st <- get ;;
        let last := lastInsertedLengthRef st in
        if last <? length t then
          (let newChunk := Js.clean (Js.slice last t) in
           if Js.truthy newChunk then
             let insertPos :=
               match aiTextStartPosRef st with
               | Some start => start + last
               | None => fst (selection st)
               end in
             (match aiTextStartPosRef st with
              | None => set_aiTextStartPos (Some insertPos)
              | Some _ => ret tt
              end) ;;
             dispatch
               [PM.Insert
                  (insertPos + last - (if 0 <? last then last else 0))
                  newChunk true]
           else ret tt) ;;
          set_lastInsertedLength (length t)
        else ret tt
      else set_lastInsertedLength 0
  end.

(** [handleAccept]: "remove italic styling". *)
Definition handleAccept : M unit :=
  st <- get ;;
  (match aiTextStartPosRef st with
   | Some startPos =>
       let endPos := PM.content_size (doc st) - 1 in
       dispatch [PM.RemoveMark startPos endPos]
   | None => ret tt
   end) ;;
  set_aiTextStartPos None ;;
  set_isReplacingSelection false ;;
  set_originalText [] ;;
  set_selectionRange None ;;
  setShowToolbar false ;;
  emit OnAccept.

(** [handleReject]: "remove AI text from editor (and restore original if
    replacing)". *)
Definition handleReject : M unit :=
  st <- get ;;
  (match aiTextStartPosRef st with
   | Some startPos =>
       let endPos := PM.content_size (doc st) - 1 in
       dispatch
         (PM.Delete startPos endPos
            :: if isReplacingSelectionRef st
                  && Js.truthy (originalTextRef st)
               then [PM.Insert startPos (originalTextRef st) false]
               else [])
   | None => ret tt
   end) ;;
  set_aiTextStartPos None ;;
  set_lastInsertedLength 0 ;;
  set_isReplacingSelection false ;;
  set_originalText [] ;;
  set_selectionRange None ;;
  setShowToolbar false ;;
  emit OnReject.

(** [handleModify]: "delete existing AI text and prepare for new
    text". *)
Definition handleModify (action : AiAction) : M unit :=
  st <- get ;;
  (match aiTextStartPosRef st with
   | Some startPos =>
       let endPos := PM.content_size (doc st) - 1 in
       dispatch [PM.Delete startPos endPos] ;;
       set_lastInsertedLength 0
   | None => ret tt
   end) ;;
  setShowToolbar false ;;
  emit (OnModify action).

(** [handleSelectionAiAction]: "Handle AI action on selected text". *)
Definition handleSelectionAiAction (action : AiAction) : M unit :=
  st <- get ;;
  let selected := selectedText st in
  if Js.truthy selected then
    let '(from, to) := selection st in
    set_selectionRange (Some (from, to)) ;;
    set_isReplacingSelection true ;;
    set_originalText selected ;;
    dispatch [PM.Delete from to; PM.SetSelection from] ;;
    set_aiTextStartPos (Some from) ;;
    set_lastInsertedLength 0 ;;
    setShowSelectionToolbar false ;;
    emit (OnGenerate action selected)
  else ret tt.

(** The fragments of a stream reach the component as the growing value
    of [apiText]: after each one the effect runs on what has arrived so
    far. *)
Fixpoint deliver (arrived : Js.str) (fragments : list Js.str) : M unit :=
  match fragments with
  | [] => ret tt
  | f :: fs =>
      apiTextEffect (Some (arrived ++ f)) ;;
      deliver (arrived ++ f) fs
  end.

(** What happens to a session between its start and its decision. *)
Inductive Input : Type :=
| ApiText (apiText : option Js.str)
| Modify (action : AiAction).

Definition input (i : Input) : M unit :=
  match i with
  | ApiText t => apiTextEffect t
  | Modify a => handleModify a
  end.

Fixpoint inputs (l : list Input) : M unit :=
  match l with
  | [] => ret tt
  | i :: l' => input i ;; inputs l'
  end.

Definition is_start_write (e : Event) : bool :=
  match e with WriteStartPos _ => true | _ => false end.

Definition is_dispatch (e : Event) : bool :=
  match e with Dispatched _ => true | _ => false end.


(** The selection lies inside the paragraph. *)
Definition selection_in_paragraph (st : State) : Prop :=
  1 <= fst (selection st) /\ fst (selection st) <= snd (selection st)
  /\ snd (selection st) <= length (doc st) + 1.

(** [selectedText] is what [dispatchTransaction] left there for the
    current selection. *)
Definition toolbar_in_sync (st : State) : Prop :=
  selectedText st
  = if negb (fst (selection st) =? snd (selection st))
       && (3 <? snd (selection st) - fst (selection st))
    then PM.textBetween (fst (selection st)) (snd (selection st)) (doc st)
    else [].

(** An editor that holds no session: document [d], selection
    [from, to], the refs as they are initialized and the selection
    toolbar as [dispatchTransaction] sets it for this selection. *)
Definition mounted (d : PM.Doc) (from to : nat) : State :=
  mkState d (from, to) 0 None None false []
    (if negb (from =? to) && (3 <? to - from)
     then PM.textBetween from to d else [])
    false
    (negb (from =? to) && (3 <? to - from)).

(** Where the effect inserts: at the anchor plus what was counted so
    far, or at the selection start when there is no anchor. *)
Definition insert_pos (st : State) : nat :=
  match aiTextStartPosRef st with
  | Some start => start + lastInsertedLengthRef st
  | None => fst (selection st)
  end.

(** The session's anchor once the next fragment has been inserted. *)
Definition anchor_after (st : State) : nat :=
  match aiTextStartPosRef st with
  | Some start => start
  | None => fst (selection st)
  end.

(** The fragments keep their length under the editor's cleaning. *)
Definition length_kept (frags : list Js.str) : Prop :=
  Forall (fun f => length (Js.clean f) = length f) frags.

(** The fragments are left as they are by the editor's cleaning. *)
Definition clean_already (frags : list Js.str) : Prop :=
  Forall (fun f => Js.clean f = f) frags.

(** Runs the monad's plumbing, leaving the tests of the handler. *)
Ltac run_handler :=
  cbv beta iota zeta delta
    [bind ret get emit set_aiTextStartPos set_lastInsertedLength
     set_selectionRange set_isReplacingSelection set_originalText
     setShowToolbar setShowSelectionToolbar dispatch
     outcome final events
     doc selection lastInsertedLengthRef aiTextStartPosRef
     selectionRangeRef isReplacingSelectionRef originalTextRef
     selectedText showToolbar showSelectionToolbar
     PM.steps PM.step PM.tr_doc PM.tr_selection PM.docChanged
     andb orb fst snd]; cbn [app].

End Editor.

(* ================================================================== *)
(** ** Concrete sessions *)

Module Scenario.
Import Editor.
Import String.StringSyntax.
Local Open Scope string_scope.
Local Open Scope editor_scope.

Definition plain (s : String.string) : PM.Doc :=
  PM.text_node (Js.lit s) false.
Definition italic (s : String.string) : PM.Doc :=
  PM.text_node (Js.lit s) true.

(** "hello world" is selected in "hello world!!!" and expanded; two
    fragments arrive; the suggestion is rejected. *)
Definition reject_start : State :=
  mounted (plain "hello world!!!") 1 12.
Definition reject_session : M unit :=
  handleSelectionAiAction expand ;;
  deliver [] [Js.lit "it "; Js.lit "is sunny"] ;;
  handleReject.

(** A continuation at position 10 of "123456789XY", then "shorten",
    then the first fragment of the new stream. *)
Definition modify_start : State :=
  mounted (plain "123456789XY") 10 10.
Definition modify_session : M unit :=
  deliver [] [Js.lit "long text"] ;;
  handleModify shorten ;;
  apiTextEffect None ;;
  deliver [] [Js.lit "ok"].

(** A continuation in front of the user's own italic "note", accepted. *)
Definition accept_start : State :=
  mounted (italic "note") 1 1.
Definition accept_session : M unit :=
  deliver [] [Js.lit "ok "] ;;
  handleAccept.

(** One fragment with a run of two spaces, accepted. *)
Definition spaced_start : State := mounted [] 1 1.
Definition spaced_session : M unit :=
  deliver [] [Js.lit "a  b"] ;;
  handleAccept.

(** A selection action and nothing else. *)
Definition selected_start : State :=
  mounted (plain "hello world") 1 12.

(** A continuation of "Hi" at its end. *)
Definition continuation_start : State := mounted (plain "Hi") 3 3.

End Scenario.

(* ================================================================== *)
(** ** The lifecycle machine *)

Module Lifecycle.

(** Modelled from the spec: the lifecycle machine
    ([machines/editorMachine], which App.tsx imports) is not among the
    sources.  Its modes and transitions are the table of section 4.3 of
    the specification, and a failing stream returns the machine to
    [idle] with the error surfaced wherever it fails, as sections 4.1
    and 7 say of every generation error (before or in the middle of a
    stream, when continuing or when modifying); any other intent that
    has no row in the table is ignored. *)
Inductive Mode : Type := idle | streaming | pendingDecision | modifying.

Inductive Intent (E : Type) : Type :=
| generate
| generateOnSelection
| fragmentArrives
| streamCompletes
| streamFails (e : E)
| stop (anyTextEmitted : bool)
| accept
| reject
| modify.
Arguments generate {E}.
Arguments generateOnSelection {E}.
Arguments fragmentArrives {E}.
Arguments streamCompletes {E}.
Arguments stop {E}.
Arguments accept {E}.
Arguments reject {E}.
Arguments modify {E}.

Record Machine (E : Type) : Type := mkMachine {
  mode : Mode;
  error : option E          (* the surfaced error, if any *)
}.

Definition transition {E} (m : Machine E) (i : Intent E) : Machine E :=
  match mode m, i with
  | _, streamFails e => mkMachine idle (Some e)
  | idle, generate => mkMachine streaming (error m)
  | idle, generateOnSelection => mkMachine streaming (error m)
  | streaming, fragmentArrives => mkMachine streaming (error m)
  | streaming, streamCompletes => mkMachine pendingDecision (error m)
  | streaming, stop emitted =>
      mkMachine (if emitted then pendingDecision else idle) (error m)
  | pendingDecision, accept => mkMachine idle (error m)
  | pendingDecision, reject => mkMachine idle (error m)
  | pendingDecision, modify => mkMachine modifying (error m)
  | modifying, fragmentArrives => mkMachine modifying (error m)
  | modifying, streamCompletes => mkMachine pendingDecision (error m)
  | _, _ => m
  end.

End Lifecycle.

(* ================================================================== *)
(** ** More string operations *)

Module Text.

(** [a === b] on strings. *)
Fixpoint eqb (a b : Js.str) : bool :=
  match a, b with
  | [], [] => true
  | x :: a', y :: b' => (x =? y)%N && eqb a' b'
  | _, _ => false
  end.

(** White space at the start of a string is dropped. *)
Fixpoint trim_start (s : Js.str) : Js.str :=
  match s with
  | [] => []
  | c :: s' => if Js.is_space c then trim_start s' else s
  end.

(** White space at the end of a string is dropped. *)
Fixpoint trim_end (s : Js.str) : Js.str :=
  match s with
  | [] => []
  | c :: s' =>
      match trim_end s' with
      | [] => if Js.is_space c then [] else [c]
      | r => c :: r
      end
  end.

(** [s.trim()]: the white space of [trim] is the class [\s]. *)
Definition trim (s : Js.str) : Js.str := trim_end (trim_start s).

(** [s.split(/\s+/)]: the pieces between the maximal runs of white
    space; a run at the start or the end leaves an empty piece there.
    [cur] is the piece being read, [in_sep] tells that the previous unit
    belonged to a separator. *)
Fixpoint split_spaces (in_sep : bool) (cur : Js.str) (s : Js.str)
    : list Js.str :=
  match s with
  | [] => [cur]
  | c :: s' =>
      if Js.is_space c
      then if in_sep then split_spaces true cur s'
           else cur :: split_spaces true [] s'
      else split_spaces false (cur ++ [c]) s'
  end.

(** The number of maximal runs of units that are not white space.
    [in_word] tells that the previous unit belonged to such a run. *)
Fixpoint count_words (in_word : bool) (s : Js.str) : nat :=
  match s with
  | [] => 0
  | c :: s' =>
      if Js.is_space c then count_words false s'
      else (if in_word then 0 else 1) + count_words true s'
  end.

(** The string is empty or ends in a unit that is not white space. *)
Fixpoint ends_in_ink (s : Js.str) : bool :=
  match s with
  | [] => true
  | c :: s' =>
      match s' with
      | [] => negb (Js.is_space c)
      | _ :: _ => ends_in_ink s'
      end
  end.

(** The string ends, or starts, in white space. *)
Fixpoint ends_in_space (s : Js.str) : bool :=
  match s with
  | [] => false
  | c :: s' =>
      match s' with
      | [] => Js.is_space c
      | _ :: _ => ends_in_space s'
      end
  end.

Definition starts_in_space (s : Js.str) : bool :=
  match s with
  | [] => false
  | c :: _ => Js.is_space c
  end.

End Text.

(* ================================================================== *)
(** ** The application shell (App.tsx) *)

Module App.
Import String.StringSyntax.
Local Open Scope string_scope.

(** The document statistics of [EditorApp], computed from the saved
    content of the active document. *)
Definition wordCount (currentContent : Js.str) : nat :=
  if Js.truthy (Text.trim currentContent)
  then length (Text.split_spaces false [] (Text.trim currentContent))
  else 0.

Definition charCount (currentContent : Js.str) : nat :=
  length currentContent.

Definition canGenerate (currentContent : Js.str) : bool :=
  1 <=? length currentContent.

(** [Math.max(1, Math.ceil(wordCount / 200))]. *)
Definition readingTime (currentContent : Js.str) : nat :=
  Nat.max 1 ((wordCount currentContent + 199) / 200).

(** What [send] hands to the machine. *)
Inductive MachineEvent : Type :=
| GENERATE (currentText : Js.str) (tone : Js.str)
| GENERATE_WITH_ACTION (selectedText : Js.str) (action : Editor.AiAction)
| STOP
| ACCEPT
| REJECT
| MODIFY (action : Editor.AiAction).

(** [handleGenerate(action?, selectedText?)]; an action is a non-empty
    string, so it is truthy whenever it is given. *)
Definition handleGenerate (currentContent tone : Js.str)
    (action : option Editor.AiAction) (selectedText : option Js.str)
    : MachineEvent :=
  match action, selectedText with
  | Some a, Some t =>
      if Js.truthy t then GENERATE_WITH_ACTION t a
      else GENERATE currentContent tone
  | _, _ => GENERATE currentContent tone
  end.

(** The callbacks [EditorApp] hands to the editor ([onGenerate],
    [onAccept], [onReject], [onModify]): what a handler's events send to
    the machine. *)
Definition sent (currentContent tone : Js.str) (e : Editor.Event)
    : list MachineEvent :=
  match e with
  | Editor.OnGenerate action text =>
      [handleGenerate currentContent tone (Some action) (Some text)]
  | Editor.OnAccept => [ACCEPT]
  | Editor.OnReject => [REJECT]
  | Editor.OnModify action => [MODIFY action]
  | _ => []
  end.

(** The two preferences kept in [localStorage]: what [getItem] gives for
    the keys [chronicle_sidebar_collapsed] and [chronicle_tone]
    ([None]: no such item), and whether [getItem] throws. *)
Record Prefs : Type := mkPrefs {
  chronicle_sidebar_collapsed : option Js.str;
  chronicle_tone : option Js.str;
  getItem_throws : bool
}.

(** [loadSidebarState]. *)
Definition loadSidebarState (p : Prefs) : bool :=
  if getItem_throws p then false
  else match chronicle_sidebar_collapsed p with
       | Some stored => Text.eqb stored (Js.lit "true")
       | None => false
       end.

(** [loadTone]: what is stored is taken as the tone as it is. *)
Definition loadTone (p : Prefs) : Js.str :=
  if getItem_throws p then Js.lit "professional"
  else match chronicle_tone p with
       | Some stored =>
           if Js.truthy stored then stored else Js.lit "professional"
       | None => Js.lit "professional"
       end.

(** [String(b)]. *)
Definition string_of_bool (b : bool) : Js.str :=
  if b then Js.lit "true" else Js.lit "false".

(** [toggleSidebar]: the new state and what is stored ([setItem] is
    taken to succeed, here and in [handleToneChange]). *)
Definition toggleSidebar (prev : bool) (p : Prefs) : bool * Prefs :=
  let newState := negb prev in
  (newState,
   mkPrefs (Some (string_of_bool newState)) (chronicle_tone p)
     (getItem_throws p)).

(** [handleToneChange]. *)
Definition handleToneChange (newTone : Js.str) (p : Prefs)
    : Js.str * Prefs :=
  (newTone,
   mkPrefs (chronicle_sidebar_collapsed p) (Some newTone)
     (getItem_throws p)).

(** [TONE_OPTIONS] of lib/ai: value and label. *)
Definition TONE_OPTIONS : list (Js.str * Js.str) :=
  [(Js.lit "professional", Js.lit "Professional");
   (Js.lit "casual", Js.lit "Casual");
   (Js.lit "formal", Js.lit "Formal");
   (Js.lit "friendly", Js.lit "Friendly");
   (Js.lit "creative", Js.lit "Creative");
   (Js.lit "academic", Js.lit "Academic")].

(** [selectedLabel] of the control bar:
    [TONE_OPTIONS.find((o) => o.value === tone)?.label || "Professional"]. *)
Definition selectedLabel (tone : Js.str) : Js.str :=
  match find (fun o => Text.eqb (fst o) tone) TONE_OPTIONS with
  | Some o => if Js.truthy (snd o) then snd o else Js.lit "Professional"
  | None => Js.lit "Professional"
  end.

End App.

(* ================================================================== *)
(** ** The slash menu's AI commands (Editor.tsx, [handleBlockSelect]) *)

Module Slash.
Import String.StringSyntax.
Local Open Scope string_scope.



End Slash.

(* ================================================================== *)
(** ** The document store (contexts, [DocumentProvider]) *)

Module Documents.
Import String.StringSyntax.
Local Open Scope string_scope.

Record Document : Type := mkDocument {
  id : Js.str;
  title : Js.str;
  content : Js.str;
  createdAt : Z;
  updatedAt : Z
}.

(** The provider's two pieces of state. *)
Record Store : Type := mkStore {
  documents : list Document;
  activeDocId : option Js.str
}.

(** [d.id === activeDocId], where [activeDocId] may be [null]. *)
Definition is_id (a : option Js.str) (d : Document) : bool :=
  match a with
  | Some i => Text.eqb (id d) i
  | None => false
  end.

(** [documents.find((d) => d.id === activeDocId) || null]. *)
Definition activeDocument (s : Store) : option Document :=
  find (is_id (activeDocId s)) (documents s).

(** [getDocument(id)]. *)
Definition getDocument (i : Js.str) (s : Store) : option Document :=
  find (is_id (Some i)) (documents s).

(** [createDocument()]; [newId] is what [generateId()] gives and [now]
    what [Date.now()] gives. *)
Definition createDocument (newId : Js.str) (now : Z) (s : Store)
    : Document * Store :=
  let newDoc := mkDocument newId (Js.lit "Untitled") [] now now in
  (newDoc, mkStore (newDoc :: documents s) (Some newId)).

(** [updateDocument(id, updates)]; an update names a title, a content,
    both or none. *)
Definition updateDocument (i : Js.str)
    (newTitle newContent : option Js.str) (now : Z) (s : Store) : Store :=
  mkStore
    (map (fun d =>
            if Text.eqb (id d) i
            then mkDocument (id d)
                   (match newTitle with Some t => t | None => title d end)
                   (match newContent with Some c => c | None => content d end)
                   (createdAt d) now
            else d)
       (documents s))
    (activeDocId s).

(** [deleteDocument(id)]. *)
Definition deleteDocument (i : Js.str) (s : Store) : Store :=
  let newDocs := filter (fun d => negb (Text.eqb (id d) i)) (documents s) in
  mkStore newDocs
    (if match activeDocId s with
        | Some a => Text.eqb a i
        | None => false
        end
     then match newDocs with
          | nextDoc :: _ =>
              if Js.truthy (id nextDoc) then Some (id nextDoc) else None
          | [] => None
          end
     else activeDocId s).

(** [setActiveDocument(id)]. *)
Definition setActiveDocument (i : Js.str) (s : Store) : Store :=
  mkStore (documents s) (Some i).

(** The effect that runs once after mount ("Initialize with a default
    document if none exist"). *)
Definition initialize (newId : Js.str) (now : Z) (s : Store) : Store :=
  match documents s with
  | [] => snd (createDocument newId now s)
  | first :: _ =>
      if negb (match activeDocId s with
               | Some a => Js.truthy a
               | None => false
               end)
         || match find (is_id (activeDocId s)) (documents s) with
            | Some _ => false
            | None => true
            end
      then mkStore (documents s) (Some (id first))
      else s
  end.

(** What the sidebar does to the store. *)
Inductive Action : Type :=
| NewDocument (newId : Js.str) (now : Z)          (* handleNewDocument *)
| SelectDocument (docId : Js.str)                 (* handleSelectDocument *)
| DeleteDocument (docId : Js.str)                 (* handleDeleteDocument *)
| UpdateDocument (docId : Js.str) (newTitle newContent : option Js.str)
    (now : Z).                  (* handleTitleChange, handleEditorUpdate *)

(** [handleDeleteDocument] deletes only while more than one document is
    listed. *)
Definition act (a : Action) (s : Store) : Store :=
  match a with
  | NewDocument newId now => snd (createDocument newId now s)
  | SelectDocument docId => setActiveDocument docId s
  | DeleteDocument docId =>
      if 1 <? length (documents s) then deleteDocument docId s else s
  | UpdateDocument docId t c now => updateDocument docId t c now s
  end.

Definition ids (s : Store) : list Js.str := map id (documents s).

(** The sidebar offers select and delete for listed documents; a new
    document gets an id that is not in use and not empty. *)
Definition offered (a : Action) (s : Store) : Prop :=
  match a with
  | NewDocument newId _ => ~ In newId (ids s) /\ newId <> []
  | SelectDocument docId => In docId (ids s)
  | DeleteDocument docId => In docId (ids s)
  | UpdateDocument _ _ _ _ => True
  end.

Fixpoint offered_all (l : list Action) (s : Store) : Prop :=
  match l with
  | [] => True
  | a :: l' => offered a s /\ offered_all l' (act a s)
  end.

Definition run (l : list Action) (s : Store) : Store :=
  fold_left (fun s a => act a s) l s.

(** The ids are distinct and not empty, there is a document, and the
    active id is the id of one. *)
Definition well_formed (s : Store) : Prop :=
  NoDup (ids s)
  /\ ~ In [] (ids s)
  /\ documents s <> []
  /\ exists a, activeDocId s = Some a /\ In a (ids s).

End Documents.

(* ================================================================== *)
(** ** The sidebar's dates (Sidebar.tsx, [formatDate]) *)

Module Sidebar.

Inductive DateLabel : Type :=
| Today
| Yesterday
| DaysAgo (diffDays : Z)          (* `${diffDays} days ago` *)
| LocaleDate.                     (* date.toLocaleDateString() *)

Definition msPerDay : Z := (1000 * 60 * 60 * 24)%Z.

(** The time values of a [Date] are the whole milliseconds up to
    [maxTime] either side of 1970; [new Date(t)] of any other number is
    an invalid date, whose [getTime()] is NaN. *)
Definition maxTime : Z := 8640000000000000%Z.

Definition valid_time (t : Z) : bool :=
  ((- maxTime <=? t) && (t <=? maxTime))%Z.

(** Up to [2^51] ms either side of 1970 the difference of two times and
    the floor of its quotient by [msPerDay], which the code computes in
    doubles, are the exact ones: the difference is below [2^53], and
    the quotient, below [2^26], lies at least [1 / msPerDay] under the
    next whole number, more than half the gap between doubles there. *)
Definition exact_time (t : Z) : Prop := (- 2 ^ 51 <= t <= 2 ^ 51)%Z.

(** [formatDate(timestamp)] when [new Date()] is [now], both in
    milliseconds.  With an invalid date [diffDays] is NaN, all three
    tests fail and the locale string (of the invalid date) is
    returned. *)
Definition formatDate (now timestamp : Z) : DateLabel :=
  if valid_time timestamp then
    let diffDays := ((now - timestamp) / msPerDay)%Z in
    if (diffDays =? 0)%Z then Today
    else if (diffDays =? 1)%Z then Yesterday
    else if (diffDays <? 7)%Z then DaysAgo diffDays
    else LocaleDate
  else LocaleDate.

End Sidebar.

(* ================================================================== *)
(** ** Accounts (LandingPage.tsx, [handleSubmit]; App.tsx) *)

Module Auth.
Import String.StringSyntax.
Local Open Scope string_scope.

Record User : Type := mkUser {
  email : Js.str;
  password : Js.str;
  name : Js.str
}.

Record Account : Type := mkAccount {
  account_email : Js.str;
  account_name : Js.str
}.

(** The two items of [localStorage] the page keeps, each read as the
    value its JSON text encodes ([None]: no such item). *)
Record Store : Type := mkStore {
  chronicle_users : option (list User);
  chronicle_current_user : option Account
}.

(** The form: the mode and the three fields. *)
Record Form : Type := mkForm {
  isLogin : bool;
  form_email : Js.str;
  form_password : Js.str;
  form_name : Js.str
}.

(** What a submit ends in: an error message is shown, or [onLogin] is
    called and the dialog closed. *)
Inductive Submitted : Type :=
| Error (message : String.string)
| LoggedIn (account : Account).

(** [JSON.parse(localStorage.getItem("chronicle_users") || "[]")]. *)
Definition stored_users (s : Store) : list User :=
  match chronicle_users s with
  | Some users => users
  | None => []
  end.

(** [handleSubmit]. *)
Definition handleSubmit (f : Form) (s : Store) : Submitted * Store :=
  if negb (Js.truthy (form_email f)) || negb (Js.truthy (form_password f))
  then (Error "Please fill in all fields", s)
  else if negb (isLogin f) && negb (Js.truthy (form_name f))
  then (Error "Please enter your name", s)
  else
    let users := stored_users s in
    if isLogin f then
      match find (fun u => Text.eqb (email u) (form_email f)
                           && Text.eqb (password u) (form_password f))
                 users with
      | Some user =>
          (LoggedIn (mkAccount (email user) (name user)),
           mkStore (chronicle_users s)
             (Some (mkAccount (email user) (name user))))
      | None => (Error "Invalid email or password", s)
      end
    else
      match find (fun u => Text.eqb (email u) (form_email f)) users with
      | Some _ => (Error "An account with this email already exists", s)
      | None =>
          let newUser :=
            mkUser (form_email f) (form_password f) (form_name f) in
          (LoggedIn (mkAccount (form_email f) (form_name f)),
           mkStore (Some (users ++ [newUser]))
             (Some (mkAccount (form_email f) (form_name f))))
      end.

(** [getStoredUser] of App.tsx. *)
Definition getStoredUser (s : Store) : option Account :=
  chronicle_current_user s.

(** [handleLogout] of App.tsx: the item is removed. *)
Definition handleLogout (s : Store) : Store :=
  mkStore (chronicle_users s) None.

Definition emails (users : list User) : list Js.str := map email users.

End Auth.

(* ================================================================== *)
(** ** Facts about cleaning *)

Section CleanFacts.
Import Js.

Lemma is_newline_is_space c : is_newline c = true -> is_space c = true.
Proof.
  unfold is_newline, is_space. intros H.
  apply orb_true_iff in H. destruct H as [H | H];
    apply N.eqb_eq in H; subst; reflexivity.
Qed.

Lemma space_is_space : is_space space = true.
Proof. reflexivity. Qed.

Lemma space_not_newline : is_newline space = false.
Proof. reflexivity. Qed.

Lemma replace_newlines_no_newline b s :
  forallb (fun c => negb (is_newline c)) (replace_newlines b s) = true.
Proof.
  revert b. induction s as [| c s IH]; intros b; simpl; [reflexivity |].
  destruct (is_newline c) eqn:Hc.
  - destruct b; simpl; rewrite ?IH; reflexivity.
  - simpl. rewrite Hc, IH. reflexivity.
Qed.

Lemma replace_spaces_no_newline b s :
  forallb (fun c => negb (is_newline c)) s = true ->
  forallb (fun c => negb (is_newline c)) (replace_spaces b s) = true.
Proof.
  revert b. induction s as [| c s IH]; intros b H; [reflexivity |].
  cbn [forallb] in H. apply andb_true_iff in H. destruct H as [Hc Hs].
  cbn [replace_spaces].
  destruct (is_space c).
  - destruct b; [apply IH; assumption |].
    destruct s as [| d s'].
    + cbn [forallb]. rewrite Hc. reflexivity.
    + destruct (is_space d).
      * cbn [forallb]. rewrite space_not_newline.
        apply (IH true Hs).
      * cbn [forallb]. rewrite Hc. apply (IH false Hs).
  - cbn [forallb]. rewrite Hc. apply (IH false Hs).
Qed.

(** The first unit written by [replace_spaces true] is never white
    space: the run it is in has been written already. *)
Lemma replace_spaces_run_head s :
  match replace_spaces true s with
  | [] => True
  | c :: _ => is_space c = false
  end.
Proof.
  induction s as [| c s IH]; simpl; [exact I |].
  destruct (is_space c) eqn:Hc; [exact IH | exact Hc].
Qed.

Lemma no_space_pair_cons2 c d s :
  no_space_pair (c :: d :: s)
  = negb (is_space c && is_space d) && no_space_pair (d :: s).
Proof. reflexivity. Qed.

Lemma no_space_pair_cons_nonspace c s :
  is_space c = false ->
  no_space_pair (c :: s) = no_space_pair s.
Proof.
  intros Hc. destruct s as [| d s]; [reflexivity |].
  rewrite no_space_pair_cons2, Hc. reflexivity.
Qed.

Lemma replace_spaces_no_pair b s :
  no_space_pair (replace_spaces b s) = true.
Proof.
  revert b. induction s as [| c s IH]; intros b; [reflexivity |].
  cbn [replace_spaces].
  destruct (is_space c) eqn:Hc.
  - destruct b; [apply IH |].
    destruct s as [| d s']; [reflexivity |].
    destruct (is_space d) eqn:Hd.
    + pose proof (replace_spaces_run_head (d :: s')) as Hh.
      pose proof (IH true) as Hp.
      destruct (replace_spaces true (d :: s')) as [| x r]; [reflexivity |].
      rewrite no_space_pair_cons2, Hh, andb_false_r. exact Hp.
    + pose proof (IH false) as Hp.
      cbn [replace_spaces] in Hp. rewrite Hd in Hp.
      cbn [replace_spaces]. rewrite Hd.
      rewrite no_space_pair_cons2, Hd, andb_false_r. exact Hp.
  - rewrite no_space_pair_cons_nonspace by exact Hc. apply IH.
Qed.

Lemma clean_normalized s : normalized (clean s).
Proof.
  split.
  - apply replace_spaces_no_newline, replace_newlines_no_newline.
  - apply replace_spaces_no_pair.
Qed.

Lemma code_points_cons2 c d s :
  code_points (c :: d :: s)
  = if is_high_surrogate c && is_low_surrogate d
    then [c; d] :: code_points s
    else [c] :: code_points (d :: s).
Proof. reflexivity. Qed.

Lemma code_points_concat s : concat (code_points s) = s.
Proof.
  enough (H : concat (code_points s) = s
              /\ forall c, concat (code_points (c :: s)) = c :: s)
    by apply H.
  induction s as [| d u [IHu IHc]].
  - split; reflexivity.
  - split; [apply IHc |].
    intros c. rewrite code_points_cons2.
    destruct (is_high_surrogate c && is_low_surrogate d).
    + cbn [concat app]. rewrite IHu. reflexivity.
    + cbn [concat app]. rewrite IHc. reflexivity.
Qed.

Lemma no_space_pair_tail c s :
  no_space_pair (c :: s) = true -> no_space_pair s = true.
Proof.
  destruct s as [| d s]; [reflexivity |].
  rewrite no_space_pair_cons2. intros H.
  apply andb_true_iff in H. apply H.
Qed.

Lemma normalized_tail c s : normalized (c :: s) -> normalized s.
Proof.
  intros [Hn Hp]. split.
  - cbn [forallb] in Hn. apply andb_true_iff in Hn. apply Hn.
  - apply (no_space_pair_tail c), Hp.
Qed.

Lemma normalized_one c s : normalized (c :: s) -> normalized [c].
Proof.
  intros [Hn _]. split; [| reflexivity].
  cbn [forallb] in Hn |- *. apply andb_true_iff in Hn.
  destruct Hn as [Hc _]. rewrite Hc. reflexivity.
Qed.

Lemma normalized_two c d s : normalized (c :: d :: s) -> normalized [c; d].
Proof.
  intros [Hn Hp]. split.
  - cbn [forallb] in Hn |- *.
    apply andb_true_iff in Hn. destruct Hn as [Hc Hn].
    apply andb_true_iff in Hn. destruct Hn as [Hd _].
    rewrite Hc, Hd. reflexivity.
  - rewrite no_space_pair_cons2 in Hp |- *.
    apply andb_true_iff in Hp. destruct Hp as [Hcd _].
    rewrite Hcd. reflexivity.
Qed.

(** The pieces the string iterator hands out are normalized when the
    string is. *)
Lemma code_points_normalized s :
  normalized s -> Forall normalized (code_points s).
Proof.
  enough (H : (normalized s -> Forall normalized (code_points s))
              /\ forall c, normalized (c :: s) ->
                           Forall normalized (code_points (c :: s)))
    by apply H.
  induction s as [| d u [IHu IHc]].
  - split; [constructor |].
    intros c Hn. repeat constructor; apply Hn.
  - split; [apply IHc |].
    intros c Hn. rewrite code_points_cons2.
    destruct (is_high_surrogate c && is_low_surrogate d).
    + constructor; [apply (normalized_two Hn) |].
      apply IHu. apply (normalized_tail (normalized_tail Hn)).
    + constructor; [apply (normalized_one Hn) |].
      apply IHc. apply (normalized_tail Hn).
Qed.




(** Cleaning leaves a normalized string as it is. *)
Lemma replace_newlines_fixed b s :
  forallb (fun c => negb (is_newline c)) s = true ->
  replace_newlines b s = s.
Proof.
  revert b. induction s as [| c s IH]; intros b H; [reflexivity |].
  cbn [forallb] in H. apply andb_true_iff in H. destruct H as [Hc Hs].
  apply negb_true_iff in Hc. cbn [replace_newlines]. rewrite Hc.
  rewrite IH by exact Hs. reflexivity.
Qed.

Lemma replace_spaces_fixed s :
  no_space_pair s = true -> replace_spaces false s = s.
Proof.
  induction s as [| c s IH]; intros H; [reflexivity |].
  pose proof (no_space_pair_tail _ _ H) as Ht.
  cbn [replace_spaces].
  destruct (is_space c) eqn:Hc.
  - destruct s as [| d s']; [reflexivity |].
    rewrite no_space_pair_cons2, Hc in H.
    apply andb_true_iff in H. destruct H as [Hd _].
    cbn [andb] in Hd. apply negb_true_iff in Hd. rewrite Hd.
    rewrite IH by exact Ht. reflexivity.
  - rewrite IH by exact Ht. reflexivity.
Qed.

Lemma clean_fixed s : normalized s -> clean s = s.
Proof.
  intros [Hn Hp]. unfold clean.
  rewrite replace_newlines_fixed by exact Hn.
  apply replace_spaces_fixed, Hp.
Qed.

Lemma code_points_clean_already s :
  normalized s -> Forall (fun f => clean f = f) (code_points s).
Proof.
  intros Hn. apply (Forall_impl _ clean_fixed), code_points_normalized, Hn.
Qed.

Lemma clean_nil : clean [] = [].
Proof. reflexivity. Qed.

Lemma emit_chunk_concat chunkText :
  concat (Adapter.emit_chunk chunkText) = clean chunkText.
Proof.
  unfold Adapter.emit_chunk. destruct chunkText as [| c t].
  - reflexivity.
  - cbn [truthy]. apply code_points_concat.
Qed.


Lemma emit_chunk_clean_already chunkText :
  Forall (fun f => clean f = f) (Adapter.emit_chunk chunkText).
Proof.
  unfold Adapter.emit_chunk. destruct (truthy chunkText).
  - apply code_points_clean_already, clean_normalized.
  - constructor.
Qed.

Lemma flat_map_emit_concat chunks :
  concat (flat_map Adapter.emit_chunk chunks) = concat (map clean chunks).
Proof.
  induction chunks as [| c cs IH]; [reflexivity |].
  cbn [flat_map map concat]. rewrite concat_app, emit_chunk_concat, IH.
  reflexivity.
Qed.

Lemma flat_map_emit_Forall (P : str -> Prop) chunks :
  (forall c, Forall P (Adapter.emit_chunk c)) ->
  Forall P (flat_map Adapter.emit_chunk chunks).
Proof.
  intros H. induction chunks as [| c cs IH]; [constructor |].
  cbn [flat_map]. apply Forall_app. split; [apply H | apply IH].
Qed.

End CleanFacts.

(* ================================================================== *)
(** ** The cleaning step against the specification's normalisation *)

Section CollapseFacts.
Import Js.












End CollapseFacts.

(* ================================================================== *)
(** ** Facts about the document operations *)

Section DocFacts.
Import PM.

Lemma text_app d1 d2 : text (d1 ++ d2) = text d1 ++ text d2.
Proof. apply map_app. Qed.

Lemma text_text_node s b : text (text_node s b) = s.
Proof.
  unfold text, text_node. rewrite map_map. simpl. apply map_id.
Qed.

Lemma length_text_node s b : length (text_node s b) = length s.
Proof. apply length_map. Qed.

Lemma text_node_app s1 s2 b :
  text_node (s1 ++ s2) b = text_node s1 b ++ text_node s2 b.
Proof. apply map_app. Qed.

Lemma length_text d : length (text d) = length d.
Proof. apply length_map. Qed.

Lemma remove_em_text pos from to d : text (remove_em pos from to d) = text d.
Proof.
  revert pos. induction d as [| u d IH]; intros pos; [reflexivity |].
  cbn [remove_em text map]. f_equal.
  - destruct ((from <=? pos) && (pos <? to)); reflexivity.
  - apply IH.
Qed.

Lemma remove_em_length pos from to d :
  length (remove_em pos from to d) = length d.
Proof.
  rewrite <- (length_text d), <- (remove_em_text pos from to d).
  symmetry. apply length_text.
Qed.

(** Units before [from] keep their marks. *)
Lemma remove_em_before pos from to d1 d2 :
  pos + length d1 <= from ->
  remove_em pos from to (d1 ++ d2)
  = d1 ++ remove_em (pos + length d1) from to d2.
Proof.
  revert pos. induction d1 as [| u d1 IH]; intros pos H.
  - simpl. rewrite Nat.add_0_r. reflexivity.
  - simpl in H. cbn [app remove_em length].
    replace ((from <=? pos) && (pos <? to)) with false.
    2:{ symmetry. apply andb_false_iff. left. apply Nat.leb_gt. lia. }
    f_equal. rewrite IH by lia. f_equal. f_equal. lia.
Qed.

(** Units from [from] on, up to [to], lose the mark. *)
Lemma remove_em_inside pos from to d :
  from <= pos -> pos + length d <= to ->
  remove_em pos from to d = text_node (text d) false.
Proof.
  revert pos. induction d as [| u d IH]; intros pos H1 H2; [reflexivity |].
  simpl in H2. cbn [remove_em text text_node map].
  replace ((from <=? pos) && (pos <? to)) with true.
  2:{ symmetry. apply andb_true_iff. split;
      [apply Nat.leb_le | apply Nat.ltb_lt]; lia. }
  f_equal. apply IH; lia.
Qed.

Lemma textBetween_app pre mid post :
  textBetween (length pre + 1) (length pre + 1 + length mid)
    (pre ++ mid ++ post) = text mid.
Proof.
  unfold textBetween.
  replace (length pre + 1 - 1) with (length pre) by lia.
  replace (length pre + 1 + length mid - (length pre + 1))
    with (length mid) by lia.
  rewrite skipn_app, skipn_all, Nat.sub_diag. cbn [skipn app].
  rewrite firstn_app, firstn_all, Nat.sub_diag. cbn [firstn].
  rewrite app_nil_r. reflexivity.
Qed.

End DocFacts.

(* ================================================================== *)
(** ** Facts about the handlers *)

Section HandlerFacts.
Import Editor.
Local Open Scope editor_scope.

Lemma clean_truthy s : Js.truthy s = true -> Js.truthy (Js.clean s) = true.
Proof.
  destruct s as [| c s]; [discriminate |]. intros _.
  unfold Js.clean. cbn [Js.replace_newlines].
  assert (H : forall x r, Js.truthy (Js.replace_spaces false (x :: r)) = true).
  { intros x r. cbn [Js.replace_spaces].
    destruct (Js.is_space x); [| reflexivity].
    destruct r as [| d r']; [reflexivity |].
    destruct (Js.is_space d); reflexivity. }
  destruct (Js.is_newline c); apply H.
Qed.

Lemma slice_truthy n (t : Js.str) :
  n < length t -> Js.truthy (Js.slice n t) = true.
Proof.
  intros H. unfold Js.slice.
  pose proof (length_skipn n t) as Hl.
  destruct (skipn n t); [simpl in Hl; lia | reflexivity].
Qed.

Lemma insert_offset pos last :
  pos + last - (if 0 <? last then last else 0) = pos.
Proof. destruct last; simpl; lia. Qed.

(** One run of the effect on a longer [apiText], position in range. *)
Lemma apiTextEffect_append st t :
  lastInsertedLengthRef st < length t ->
  PM.in_paragraph (insert_pos st) (doc st) = true ->
  let chunk := Js.clean (Js.slice (lastInsertedLengthRef st) t) in
  let r := apiTextEffect (Some t) st in
  outcome r = Returned tt
  /\ doc (final r)
     = firstn (insert_pos st - 1) (doc st) ++ PM.text_node chunk true
         ++ skipn (insert_pos st - 1) (doc st)
  /\ lastInsertedLengthRef (final r) = length t
  /\ aiTextStartPosRef (final r)
     = Some (match aiTextStartPosRef st with
             | Some start => start
             | None => fst (selection st)
             end)
  /\ events r
     = (match aiTextStartPosRef st with
        | Some _ => []
        | None => [WriteStartPos (Some (insert_pos st))]
        end)
         ++ [Dispatched [PM.Insert (insert_pos st) chunk true];
             OnUpdate (PM.text (doc (final r)));
             WriteLastInserted (length t)]
  /\ selectionRangeRef (final r) = selectionRangeRef st
  /\ isReplacingSelectionRef (final r) = isReplacingSelectionRef st
  /\ originalTextRef (final r) = originalTextRef st.
Proof.
  intros Hlt Hin chunk r. subst r.
  assert (Ht : Js.truthy t = true).
  { destruct t; [simpl in Hlt; lia | reflexivity]. }
  assert (Hc : Js.truthy chunk = true)
    by (apply clean_truthy, slice_truthy, Hlt).
  apply Nat.ltb_lt in Hlt.
  unfold insert_pos in *.
  destruct st as [d [sf st'] last start rng repl orig seltxt tb stb].
  cbn [doc selection lastInsertedLengthRef aiTextStartPosRef
       selectionRangeRef isReplacingSelectionRef originalTextRef fst] in *.
  unfold apiTextEffect. rewrite Ht.
  destruct start as [q |]; run_handler;
    rewrite Hlt; fold chunk; rewrite Hc; run_handler;
    rewrite insert_offset, Hin, ?Hc; run_handler;
    repeat split; reflexivity.
Qed.

Lemma bind_returned {A B} (m : M A) (k : A -> M B) st a :
  outcome (m st) = Returned a ->
  outcome (bind m k st) = outcome (k a (final (m st)))
  /\ final (bind m k st) = final (k a (final (m st)))
  /\ events (bind m k st) = events (m st) ++ events (k a (final (m st))).
Proof.
  intros H. unfold bind. rewrite H. repeat split.
Qed.

Lemma bind_threw {A B} (m : M A) (k : A -> M B) st :
  outcome (m st) = Threw ->
  outcome (bind m k st) = Threw
  /\ final (bind m k st) = final (m st)
  /\ events (bind m k st) = events (m st).
Proof.
  intros H. unfold bind. rewrite H. repeat split.
Qed.

(** A run of the effect that finds nothing new: no edit, and only the
    counter may be written. *)
Lemma apiTextEffect_nothing_new st api :
  match api with
  | Some t => length t <= lastInsertedLengthRef st
  | None => True
  end ->
  let r := apiTextEffect api st in
  outcome r = Returned tt
  /\ doc (final r) = doc st
  /\ selection (final r) = selection st
  /\ aiTextStartPosRef (final r) = aiTextStartPosRef st
  /\ lastInsertedLengthRef (final r)
     = match api with
       | Some (_ :: _) => lastInsertedLengthRef st
       | _ => 0
       end
  /\ selectionRangeRef (final r) = selectionRangeRef st
  /\ isReplacingSelectionRef (final r) = isReplacingSelectionRef st
  /\ originalTextRef (final r) = originalTextRef st
  /\ filter is_dispatch (events r) = []
  /\ filter is_start_write (events r) = [].
Proof.
  intros H r. subst r.
  destruct st as [d [sf st'] last start rng repl orig seltxt tb stb].
  cbn [lastInsertedLengthRef] in H.
  destruct api as [[| c t] |]; unfold apiTextEffect; cbn [Js.truthy].
  - run_handler. repeat split; reflexivity.
  - run_handler.
    replace (last <? length (c :: t)) with false
      by (symmetry; apply Nat.ltb_ge; exact H).
    repeat split; reflexivity.
  - run_handler. repeat split; reflexivity.
Qed.

Lemma firstn_skipn_middle {A} (pre mid post : list A) :
  firstn (length pre + length mid) (pre ++ mid ++ post) = pre ++ mid
  /\ skipn (length pre + length mid) (pre ++ mid ++ post) = post.
Proof.
  rewrite app_assoc, <- length_app. split.
  - rewrite firstn_app, firstn_all, Nat.sub_diag. cbn [firstn].
    apply app_nil_r.
  - rewrite skipn_app, skipn_all, Nat.sub_diag. reflexivity.
Qed.

(** A stream of fragments, inserted behind one another.  [pre] is the
    document before the anchor, [mid] what the session has inserted so
    far and [post] the rest. *)
Lemma deliver_run frags :
  forall arrived st pre mid post,
    length_kept frags ->
    doc st = pre ++ mid ++ post ->
    length mid = length arrived ->
    lastInsertedLengthRef st = length arrived ->
    match aiTextStartPosRef st with
    | Some start => start = length pre + 1
    | None => fst (selection st) = length pre + 1 /\ arrived = []
    end ->
    let r := deliver arrived frags st in
    outcome r = Returned tt
    /\ doc (final r)
       = pre ++ (mid ++ PM.text_node (concat (map Js.clean frags)) true)
           ++ post
    /\ lastInsertedLengthRef (final r) = length (arrived ++ concat frags)
    /\ aiTextStartPosRef (final r)
       = (if Js.truthy (concat frags) then Some (length pre + 1)
          else aiTextStartPosRef st)
    /\ selectionRangeRef (final r) = selectionRangeRef st
    /\ isReplacingSelectionRef (final r) = isReplacingSelectionRef st
    /\ originalTextRef (final r) = originalTextRef st.
Proof.
  induction frags as [| f fs IH];
    intros arrived st pre mid post Hk Hdoc Hmid Hlast Hanchor r; subst r.
  - cbn [deliver concat map]. run_handler. cbn [PM.text_node map Js.truthy].
    rewrite !app_nil_r. repeat split; assumption.
  - inversion Hk as [| ? ? Hf Hfs]; subst.
    cbn [deliver].
    destruct f as [| c f'].
    + (* an empty fragment changes nothing *)
      rewrite app_nil_r.
      destruct (apiTextEffect_nothing_new st (Some arrived))
        as (Ho & Hd & Hs & Ha & Hl & Hr & Hi & Hot & _).
      { cbn. lia. }
      destruct (bind_returned (apiTextEffect (Some arrived))
                  (fun _ => deliver arrived fs) st Ho) as (Bo & Bf & _).
      rewrite Bo, Bf.
      assert (Hl' : lastInsertedLengthRef
                      (final (apiTextEffect (Some arrived) st))
                    = length arrived).
      { rewrite Hl. destruct arrived; [reflexivity | exact Hlast]. }
      destruct (IH arrived (final (apiTextEffect (Some arrived) st))
                  pre mid post Hfs)
        as (Io & Id & Il & Ia & Ir & Ii & Iot);
        [ rewrite Hd; exact Hdoc | exact Hmid | exact Hl'
        | rewrite Ha, Hs; exact Hanchor | ].
      cbn [map concat app Js.clean Js.replace_newlines Js.replace_spaces].
      rewrite Io, Id, Il, Ia, Ir, Ii, Iot, Ha, Hr, Hi, Hot.
      repeat split; reflexivity.
    + (* a fragment with text is inserted behind what is there *)
      set (f := c :: f') in *.
      assert (Hlt : lastInsertedLengthRef st < length (arrived ++ f)).
      { rewrite Hlast, length_app. subst f. simpl. lia. }
      assert (Hpos : insert_pos st = length pre + length mid + 1).
      { unfold insert_pos. rewrite Hlast.
        destruct (aiTextStartPosRef st) as [q |].
        - subst q. lia.
        - destruct Hanchor as [Hs Harr]. subst arrived. simpl in Hmid.
          rewrite Hs. lia. }
      assert (Hin : PM.in_paragraph (insert_pos st) (doc st) = true).
      { unfold PM.in_paragraph. rewrite Hpos, Hdoc, !length_app.
        apply andb_true_iff. split; apply Nat.leb_le; lia. }
      assert (Hslice : Js.slice (lastInsertedLengthRef st) (arrived ++ f) = f).
      { unfold Js.slice. rewrite Hlast, skipn_app, skipn_all, Nat.sub_diag.
        reflexivity. }
      destruct (apiTextEffect_append st (arrived ++ f) Hlt Hin)
        as (Ho & Hd & Hl & Ha & _ & Hr & Hi & Hot).
      rewrite Hslice, Hpos, Hdoc in Hd.
      replace (length pre + length mid + 1 - 1)
        with (length pre + length mid) in Hd by lia.
      destruct (firstn_skipn_middle pre mid post) as [Hfn Hsn].
      rewrite Hfn, Hsn in Hd.
      destruct (bind_returned (apiTextEffect (Some (arrived ++ f)))
                  (fun _ => deliver (arrived ++ f) fs) st Ho)
        as (Bo & Bf & _).
      rewrite Bo, Bf.
      assert (Ha' : aiTextStartPosRef
                      (final (apiTextEffect (Some (arrived ++ f)) st))
                    = Some (length pre + 1)).
      { rewrite Ha. destruct (aiTextStartPosRef st) as [q |].
        - rewrite Hanchor. reflexivity.
        - destruct Hanchor as [Hs _]. rewrite Hs. reflexivity. }
      destruct (IH (arrived ++ f)
                  (final (apiTextEffect (Some (arrived ++ f)) st))
                  pre (mid ++ PM.text_node (Js.clean f) true) post Hfs)
        as (Io & Id & Il & Ia & Ir & Ii & Iot).
      { rewrite Hd, <- !app_assoc. reflexivity. }
      { rewrite !length_app, length_text_node, Hf, Hmid. reflexivity. }
      { exact Hl. }
      { rewrite Ha'. reflexivity. }
      rewrite Io, Id, Il, Ia, Ir, Ii, Iot, Hr, Hi, Hot, Ha'.
      cbn [map concat]. rewrite text_node_app, <- !app_assoc.
      replace (Js.truthy (f ++ concat fs)) with true by (subst f; reflexivity).
      destruct (Js.truthy (concat fs)); repeat split; reflexivity.
Qed.

Lemma end_pos d : PM.content_size d - 1 = length d + 1.
Proof. unfold PM.content_size. lia. Qed.

Lemma textBetween_text a b d d' :
  PM.text d = PM.text d' -> PM.textBetween a b d = PM.textBetween a b d'.
Proof.
  unfold PM.textBetween, PM.text. intros H.
  rewrite <- !firstn_map, <- !skipn_map, H. reflexivity.
Qed.

(** [handleAccept] always returns; it edits marks only. *)
Lemma handleAccept_spec st :
  let r := handleAccept st in
  outcome r = Returned tt
  /\ doc (final r)
     = match aiTextStartPosRef st with
       | Some startPos =>
           PM.remove_em 1 startPos (length (doc st) + 1) (doc st)
       | None => doc st
       end
  /\ selection (final r) = selection st
  /\ lastInsertedLengthRef (final r) = lastInsertedLengthRef st
  /\ aiTextStartPosRef (final r) = None
  /\ selectionRangeRef (final r) = None
  /\ isReplacingSelectionRef (final r) = false
  /\ originalTextRef (final r) = []
  /\ filter is_dispatch (events r)
     = match aiTextStartPosRef st with
       | Some startPos =>
           [Dispatched [PM.RemoveMark startPos (length (doc st) + 1)]]
       | None => []
       end.
Proof.
  destruct st as [d [sf st'] last start rng repl orig seltxt tb stb].
  unfold handleAccept. destruct start as [q |]; run_handler.
  - rewrite end_pos.
    destruct (PM.has_em _ _ _ _); cbn [filter is_dispatch];
      repeat split; reflexivity.
  - repeat split; reflexivity.
Qed.

Lemma handleAccept_text st :
  PM.text (doc (final (handleAccept st))) = PM.text (doc st).
Proof.
  destruct (handleAccept_spec st) as (_ & Hd & _). rewrite Hd.
  destruct (aiTextStartPosRef st); [apply remove_em_text | reflexivity].
Qed.

(** The decisions without an anchor. *)
Lemma handleReject_no_anchor st :
  aiTextStartPosRef st = None ->
  let r := handleReject st in
  outcome r = Returned tt
  /\ doc (final r) = doc st
  /\ selection (final r) = selection st
  /\ selectedText (final r) = selectedText st
  /\ lastInsertedLengthRef (final r) = 0
  /\ aiTextStartPosRef (final r) = None
  /\ selectionRangeRef (final r) = None
  /\ isReplacingSelectionRef (final r) = false
  /\ originalTextRef (final r) = []
  /\ filter is_dispatch (events r) = [].
Proof.
  destruct st as [d [sf st'] last start rng repl orig seltxt tb stb].
  cbn [aiTextStartPosRef]. intros ->.
  unfold handleReject. run_handler. repeat split; reflexivity.
Qed.

Lemma handleModify_no_anchor action st :
  aiTextStartPosRef st = None ->
  let r := handleModify action st in
  outcome r = Returned tt
  /\ doc (final r) = doc st
  /\ selection (final r) = selection st
  /\ selectedText (final r) = selectedText st
  /\ lastInsertedLengthRef (final r) = lastInsertedLengthRef st
  /\ aiTextStartPosRef (final r) = None
  /\ selectionRangeRef (final r) = selectionRangeRef st
  /\ isReplacingSelectionRef (final r) = isReplacingSelectionRef st
  /\ originalTextRef (final r) = originalTextRef st
  /\ events r = [OnModify action].
Proof.
  destruct st as [d [sf st'] last start rng repl orig seltxt tb stb].
  cbn [aiTextStartPosRef]. intros ->.
  unfold handleModify. run_handler. repeat split; reflexivity.
Qed.

(** [handleModify] with an anchor inside the paragraph. *)
Lemma handleModify_anchored action st p :
  aiTextStartPosRef st = Some p ->
  1 <= p <= length (doc st) + 1 ->
  let r := handleModify action st in
  outcome r = Returned tt
  /\ doc (final r) = firstn (p - 1) (doc st)
  /\ lastInsertedLengthRef (final r) = 0
  /\ aiTextStartPosRef (final r) = Some p
  /\ selectionRangeRef (final r) = selectionRangeRef st
  /\ isReplacingSelectionRef (final r) = isReplacingSelectionRef st
  /\ originalTextRef (final r) = originalTextRef st
  /\ filter is_dispatch (events r)
     = [Dispatched [PM.Delete p (length (doc st) + 1)]].
Proof.
  destruct st as [d [sf st'] last start rng repl orig seltxt tb stb].
  cbn [aiTextStartPosRef doc]. intros -> Hp.
  unfold handleModify. run_handler. rewrite end_pos.
  destruct (Nat.eqb_spec p (length d + 1)) as [He | Hne].
  - run_handler. cbn [filter is_dispatch].
    rewrite He. replace (length d + 1 - 1) with (length d) by lia.
    rewrite firstn_all. repeat split; reflexivity.
  - replace (1 <=? p) with true by (symmetry; apply Nat.leb_le; lia).
    replace (p <? length d + 1) with true
      by (symmetry; apply Nat.ltb_lt; lia).
    rewrite Nat.leb_refl. run_handler. cbn [filter is_dispatch].
    replace (length d + 1 - 1) with (length d) by lia.
    rewrite skipn_all, app_nil_r. repeat split; reflexivity.
Qed.

(** Every dispatched transaction leaves [selectedText] in step with the
    selection. *)
Lemma dispatch_syncs_toolbar tr st :
  outcome (dispatch tr st) = Returned tt ->
  toolbar_in_sync (final (dispatch tr st)).
Proof.
  unfold dispatch.
  destruct (PM.steps tr (PM.mkTr (doc st) (selection st) false))
    as [[d [from to] changed] |]; [| discriminate].
  intros _. reflexivity.
Qed.

(** [handleSelectionAiAction] on a selection the toolbar is shown
    for. *)
Lemma handleSelectionAiAction_spec action st :
  toolbar_in_sync st ->
  selection_in_paragraph st ->
  selectedText st <> [] ->
  let from := fst (selection st) in
  let to := snd (selection st) in
  let captured := PM.textBetween from to (doc st) in
  let r := handleSelectionAiAction action st in
  outcome r = Returned tt
  /\ from < to
  /\ selectedText st = captured
  /\ doc (final r) = firstn (from - 1) (doc st) ++ skipn (to - 1) (doc st)
  /\ selection (final r) = (from, from)
  /\ aiTextStartPosRef (final r) = Some from
  /\ lastInsertedLengthRef (final r) = 0
  /\ isReplacingSelectionRef (final r) = true
  /\ originalTextRef (final r) = captured
  /\ selectionRangeRef (final r) = Some (from, to)
  /\ events r
     = [WriteSelectionRange (Some (from, to));
        WriteIsReplacing true;
        WriteOriginalText captured;
        Dispatched [PM.Delete from to; PM.SetSelection from];
        OnUpdate (PM.text (doc (final r)));
        WriteStartPos (Some from);
        WriteLastInserted 0;
        OnGenerate action captured].
Proof.
  destruct st as [d [sf st'] last start rng repl orig seltxt tb stb].
  unfold toolbar_in_sync, selection_in_paragraph.
  cbn [selection selectedText doc fst snd].
  intros Hsync (H1 & H2 & H3) Hne.
  destruct (negb (sf =? st') && (3 <? st' - sf)) eqn:Hwide;
    [| congruence].
  apply andb_true_iff in Hwide. destruct Hwide as [_ Hw].
  apply Nat.ltb_lt in Hw.
  assert (Ht : Js.truthy seltxt = true)
    by (destruct seltxt; [congruence | reflexivity]).
  unfold handleSelectionAiAction. run_handler. rewrite Ht. run_handler.
  replace (sf =? st') with false by (symmetry; apply Nat.eqb_neq; lia).
  replace (1 <=? sf) with true by (symmetry; apply Nat.leb_le; lia).
  replace (sf <? st') with true by (symmetry; apply Nat.ltb_lt; lia).
  replace (st' <=? length d + 1) with true
    by (symmetry; apply Nat.leb_le; lia).
  run_handler.
  assert (Hin : PM.in_paragraph sf
                  (firstn (sf - 1) d ++ skipn (st' - 1) d) = true).
  { unfold PM.in_paragraph. apply andb_true_iff.
    split; apply Nat.leb_le; [lia |].
    rewrite length_app, length_firstn, length_skipn. lia. }
  rewrite Hin. run_handler.
  rewrite <- Hsync. repeat split; try reflexivity. lia.
Qed.

(** Without selected text the handler does nothing at all. *)
Lemma handleSelectionAiAction_empty action st :
  selectedText st = [] ->
  handleSelectionAiAction action st = mkResult (Returned tt) st [].
Proof.
  destruct st as [d [sf st'] last start rng repl orig seltxt tb stb].
  cbn [selectedText]. intros ->. reflexivity.
Qed.

(** Once the anchor is set, neither the effect nor [handleModify]
    writes it, whether they return or throw. *)
Lemma input_keeps_anchor i st p :
  aiTextStartPosRef st = Some p ->
  aiTextStartPosRef (final (input i st)) = Some p
  /\ filter is_start_write (events (input i st)) = [].
Proof.
  destruct st as [d [sf st'] last start rng repl orig seltxt tb stb].
  cbn [aiTextStartPosRef]. intros ->.
  destruct i as [[[| c t] |] | a]; cbn [input].
  - unfold apiTextEffect. cbn [Js.truthy]. run_handler. split; reflexivity.
  - unfold apiTextEffect. cbn [Js.truthy]. run_handler.
    destruct (last <? length (c :: t)); [| split; reflexivity].
    destruct (Js.truthy (Js.clean (Js.slice last (c :: t))));
      run_handler; [| split; reflexivity].
    destruct (PM.in_paragraph _ d); run_handler; split; reflexivity.
  - unfold apiTextEffect. run_handler. split; reflexivity.
  - unfold handleModify. run_handler.
    repeat (match goal with
            | |- context [if ?b then _ else _] => destruct b
            end; run_handler);
      split; reflexivity.
Qed.

Lemma inputs_keep_anchor l :
  forall st p,
    aiTextStartPosRef st = Some p ->
    aiTextStartPosRef (final (inputs l st)) = Some p
    /\ filter is_start_write (events (inputs l st)) = [].
Proof.
  induction l as [| i l IH]; intros st p H.
  - cbn [inputs]. run_handler. split; [exact H | reflexivity].
  - cbn [inputs].
    destruct (input_keeps_anchor i st H) as [Ha He].
    destruct (outcome (input i st)) as [[] |] eqn:Ho.
    + destruct (bind_returned (input i) (fun _ => inputs l) st Ho)
        as (_ & Bf & Be).
      destruct (IH _ _ Ha) as [Ia Ie].
      rewrite Bf, Be, filter_app, He, Ie. split; [exact Ia | reflexivity].
    + destruct (bind_threw (input i) (fun _ => inputs l) st Ho)
        as (_ & Bf & Be).
      rewrite Bf, Be. split; assumption.
Qed.

(** Without an anchor, one input writes it at most once, and only the
    effect does, when it inserts a chunk. *)
Lemma input_sets_anchor_once i st :
  aiTextStartPosRef st = None ->
  (aiTextStartPosRef (final (input i st)) = None
   /\ filter is_start_write (events (input i st)) = [])
  \/ (exists t, i = ApiText (Some t)
                /\ lastInsertedLengthRef st < length t
                /\ aiTextStartPosRef (final (input i st))
                   = Some (fst (selection st))
                /\ filter is_start_write (events (input i st))
                   = [WriteStartPos (Some (fst (selection st)))]).
Proof.
  destruct st as [d [sf st'] last start rng repl orig seltxt tb stb].
  cbn [aiTextStartPosRef]. intros ->.
  destruct i as [[[| c t] |] | a]; cbn [input].
  - left. unfold apiTextEffect. cbn [Js.truthy]. run_handler.
    split; reflexivity.
  - unfold apiTextEffect. cbn [Js.truthy]. run_handler.
    destruct (last <? length (c :: t)) eqn:Hlt;
      [| left; split; reflexivity].
    apply Nat.ltb_lt in Hlt.
    rewrite (clean_truthy _ (slice_truthy _ Hlt)). run_handler.
    right. exists (c :: t). split; [reflexivity |].
    split; [exact Hlt |].
    destruct (PM.in_paragraph _ d); run_handler; split; reflexivity.
  - left. unfold apiTextEffect. run_handler. split; reflexivity.
  - left. unfold handleModify. run_handler. split; reflexivity.
Qed.

Lemma inputs_set_anchor_once l :
  forall st,
    aiTextStartPosRef st = None ->
    (aiTextStartPosRef (final (inputs l st)) = None
     /\ filter is_start_write (events (inputs l st)) = [])
    \/ (exists p,
          aiTextStartPosRef (final (inputs l st)) = Some p
          /\ filter is_start_write (events (inputs l st))
             = [WriteStartPos (Some p)]).
Proof.
  induction l as [| i l IH]; intros st H.
  - left. cbn [inputs]. run_handler. split; [exact H | reflexivity].
  - cbn [inputs].
    destruct (outcome (input i st)) as [[] |] eqn:Ho.
    + destruct (bind_returned (input i) (fun _ => inputs l) st Ho)
        as (_ & Bf & Be).
      rewrite Bf, Be, filter_app.
      destruct (input_sets_anchor_once i st H)
        as [[Ha He] | (t & _ & _ & Ha & He)]; rewrite He.
      * destruct (IH _ Ha) as [[Ia Ie] | (p & Ia & Ie)].
        -- left. rewrite Ie. split; [exact Ia | reflexivity].
        -- right. exists p. rewrite Ie. split; [exact Ia | reflexivity].
      * destruct (inputs_keep_anchor l _ Ha) as [Ia Ie].
        right. exists (fst (selection st)). rewrite Ie.
        split; [exact Ia | reflexivity].
    + destruct (bind_threw (input i) (fun _ => inputs l) st Ho)
        as (_ & Bf & Be).
      rewrite Bf, Be.
      destruct (input_sets_anchor_once i st H)
        as [[Ha He] | (t & _ & _ & Ha & He)].
      * left. split; assumption.
      * right. exists (fst (selection st)). split; assumption.
Qed.




(** What [handleReject] leaves of the document: all that stood from the
    anchor to the end of the paragraph is gone, whatever the session had
    counted. *)
Lemma handleReject_anchored st pre rest :
  aiTextStartPosRef st = Some (length pre + 1) ->
  doc st = pre ++ rest ->
  let r := handleReject st in
  outcome r = Returned tt
  /\ doc (final r)
     = pre ++ (if isReplacingSelectionRef st
               then PM.text_node (originalTextRef st) false
               else [])
  /\ aiTextStartPosRef (final r) = None
  /\ lastInsertedLengthRef (final r) = 0
  /\ isReplacingSelectionRef (final r) = false
  /\ originalTextRef (final r) = []
  /\ selectionRangeRef (final r) = None.
Proof.
  destruct st as [d [sf st'] last start rng repl orig seltxt tb stb].
  cbn [aiTextStartPosRef doc isReplacingSelectionRef originalTextRef].
  intros -> ->.
  assert (Hfirst : firstn (length pre + 1 - 1) (pre ++ rest) = pre).
  { replace (length pre + 1 - 1) with (length pre) by lia.
    rewrite firstn_app, firstn_all, Nat.sub_diag. apply app_nil_r. }
  assert (Hskip : skipn (length (pre ++ rest) + 1 - 1) (pre ++ rest) = []).
  { replace (length (pre ++ rest) + 1 - 1) with (length (pre ++ rest))
      by lia.
    apply skipn_all. }
  assert (Hpre1 : firstn (length pre + 1 - 1) pre = pre).
  { replace (length pre + 1 - 1) with (length pre) by lia.
    apply firstn_all. }
  assert (Hpre2 : skipn (length pre + 1 - 1) pre = []).
  { replace (length pre + 1 - 1) with (length pre) by lia.
    apply skipn_all. }
  assert (Hin : PM.in_paragraph (length pre + 1) pre = true).
  { unfold PM.in_paragraph. apply andb_true_iff.
    split; apply Nat.leb_le; lia. }
  unfold handleReject. run_handler. rewrite end_pos.
  destruct (Nat.eqb_spec (length pre + 1) (length (pre ++ rest) + 1))
    as [He | Hne].
  - (* nothing stands behind the anchor *)
    assert (Hrest : rest = []).
    { rewrite length_app in He. destruct rest; [reflexivity |].
      simpl in He. lia. }
    subst rest. rewrite app_nil_r in *.
    destruct repl; [destruct orig as [| c o] |]; cbn [Js.truthy];
      run_handler; rewrite ?Hin; cbn [Js.truthy]; run_handler;
      rewrite ?Hpre1, ?Hpre2, ?app_nil_r;
      repeat split; reflexivity.
  - replace (1 <=? length pre + 1) with true
      by (symmetry; apply Nat.leb_le; lia).
    replace (length pre + 1 <? length (pre ++ rest) + 1) with true.
    2:{ symmetry. apply Nat.ltb_lt. rewrite length_app in *. lia. }
    rewrite Nat.leb_refl. run_handler. rewrite Hfirst, Hskip, app_nil_r.
    destruct repl; [destruct orig as [| c o] |]; cbn [Js.truthy];
      run_handler; rewrite ?Hin; cbn [Js.truthy]; run_handler;
      rewrite ?Hpre1, ?Hpre2, ?app_nil_r;
      repeat split; reflexivity.
Qed.

(** What [handleAccept] unmarks: all that stands from the anchor to the
    end of the paragraph. *)
Lemma handleAccept_anchored st pre rest :
  aiTextStartPosRef st = Some (length pre + 1) ->
  doc st = pre ++ rest ->
  doc (final (handleAccept st))
  = pre ++ PM.text_node (PM.text rest) false.
Proof.
  intros Ha Hd. destruct (handleAccept_spec st) as (_ & H & _).
  rewrite H, Ha, Hd.
  rewrite remove_em_before by lia.
  rewrite remove_em_inside; [reflexivity | lia |].
  rewrite length_app. lia.
Qed.

(** A whole selection session that ends in a reject: the document keeps
    what stood before the selection, gets the selected text back
    without marks, and loses what stood behind the selection. *)
Lemma reject_after_selection action frags st :
  toolbar_in_sync st ->
  selection_in_paragraph st ->
  selectedText st <> [] ->
  length_kept frags ->
  let from := fst (selection st) in
  let to := snd (selection st) in
  let r := (handleSelectionAiAction action ;;
            deliver [] frags ;;
            handleReject) st in
  outcome r = Returned tt
  /\ doc (final r)
     = firstn (from - 1) (doc st)
         ++ PM.text_node (PM.textBetween from to (doc st)) false.
Proof.
  intros Hsync Hsel Hne Hk from to r.
  destruct (@handleSelectionAiAction_spec action st Hsync Hsel Hne)
    as (So & Hlt & _ & Sd & _ & Sa & Sl & Si & Sot & _).
  fold from to in Hlt, Sd, Sa, Sot.
  destruct Hsel as (H1 & _ & H3). fold from to in H1, H3.
  destruct (bind_returned (handleSelectionAiAction action)
              (fun _ => deliver [] frags ;; handleReject) st So)
    as (Bo & Bf & _).
  remember (final (handleSelectionAiAction action st)) as st1 eqn:E1.
  assert (Hpre : length (firstn (from - 1) (doc st)) + 1 = from)
    by (rewrite length_firstn; lia).
  destruct (@deliver_run frags [] st1 (firstn (from - 1) (doc st)) []
              (skipn (to - 1) (doc st)) Hk Sd eq_refl Sl)
    as (Do & Dd & _ & Da & _ & Di & Dot).
  { rewrite Sa. symmetry. exact Hpre. }
  destruct (bind_returned (deliver [] frags) (fun _ => handleReject) st1 Do)
    as (Co & Cf & _).
  remember (final (deliver [] frags st1)) as st2 eqn:E2.
  assert (Da' : aiTextStartPosRef st2
                = Some (length (firstn (from - 1) (doc st)) + 1)).
  { rewrite Da, Sa, Hpre. destruct (Js.truthy (concat frags)); reflexivity. }
  destruct (@handleReject_anchored st2 _ _ Da' Dd) as (Ro & Rd & _).
  subst r. rewrite Bo, Bf, Co, Cf, Ro, Rd, Di, Si, Dot, Sot.
  split; reflexivity.
Qed.

Lemma length_kept_concat frags :
  length_kept frags ->
  length (concat (map Js.clean frags)) = length (concat frags).
Proof.
  induction 1 as [| f fs Hf _ IH]; [reflexivity |].
  cbn [map concat]. rewrite !length_app, Hf, IH. reflexivity.
Qed.

Lemma clean_already_map frags :
  clean_already frags -> map Js.clean frags = frags.
Proof.
  induction 1 as [| f fs Hf _ IH]; [reflexivity |].
  cbn [map]. rewrite Hf, IH. reflexivity.
Qed.

Lemma clean_already_length_kept frags :
  clean_already frags -> length_kept frags.
Proof.
  unfold clean_already, length_kept. apply Forall_impl.
  intros f Hf. rewrite Hf. reflexivity.
Qed.

Lemma in_paragraph_iff pos d :
  PM.in_paragraph pos d = true <-> 1 <= pos <= length d + 1.
Proof.
  unfold PM.in_paragraph. rewrite andb_true_iff, !Nat.leb_le. tauto.
Qed.

(** After [handleModify] the next stream starts at the anchor again. *)
Lemma modify_then_fragment action st p t :
  aiTextStartPosRef st = Some p ->
  1 <= p <= length (doc st) + 1 ->
  t <> [] ->
  let st1 := final (handleModify action st) in
  let r := apiTextEffect (Some t) (final (apiTextEffect None st1)) in
  aiTextStartPosRef st1 = Some p
  /\ lastInsertedLengthRef st1 = 0
  /\ outcome r = Returned tt
  /\ filter is_dispatch (events r)
     = [Dispatched [PM.Insert p (Js.clean t) true]]
  /\ doc (final r) = firstn (p - 1) (doc st) ++ PM.text_node (Js.clean t) true
  /\ aiTextStartPosRef (final r) = Some p.
Proof.
  intros Ha Hp Ht st1 r.
  destruct (handleModify_anchored action st Ha Hp)
    as (_ & Hd & Hl & Hs & _).
  fold st1 in Hd, Hl, Hs.
  pose proof (apiTextEffect_nothing_new st1 None I) as HN.
  cbv zeta in HN. subst r.
  remember (final (apiTextEffect None st1)) as st2 eqn:E2.
  assert (Nd : doc st2 = doc st1) by (subst st2; apply HN).
  assert (Na : aiTextStartPosRef st2 = aiTextStartPosRef st1)
    by (subst st2; apply HN).
  assert (Nl : lastInsertedLengthRef st2 = 0) by (subst st2; apply HN).
  clear HN.
  assert (Hlt : lastInsertedLengthRef st2 < length t).
  { rewrite Nl. destruct t; [congruence | simpl; lia]. }
  assert (Hpos : insert_pos st2 = p).
  { unfold insert_pos. rewrite Na, Hs, Nl. lia. }
  assert (Hin : PM.in_paragraph (insert_pos st2) (doc st2) = true).
  { rewrite Hpos, Nd, Hd. apply in_paragraph_iff.
    rewrite length_firstn. lia. }
  destruct (apiTextEffect_append st2 t Hlt Hin)
    as (Ao & Ad & _ & Aa & Ae & _).
  rewrite Ao, Ad, Aa, Ae, Na, Hs, Hpos, Nl, Nd, Hd.
  unfold Js.slice. cbn [skipn app filter is_dispatch].
  assert (Hlen : length (firstn (p - 1) (doc st)) = p - 1)
    by (rewrite length_firstn; lia).
  rewrite <- Hlen at 1 3. rewrite firstn_all, skipn_all, app_nil_r.
  repeat split; try reflexivity; assumption.
Qed.

End HandlerFacts.

(* ================================================================== *)
(** ** The properties of the specification *)

Section Properties.
Import Editor.
Import String.StringSyntax.
Local Open Scope string_scope.
Local Open Scope editor_scope.




(** C6.  A selection action: the text of the selection is written to
    [originalTextRef], not empty, before the one transaction of the
    handler is dispatched; that transaction holds one deletion, of the
    selection; the anchor is written next, at the place of the
    deletion, and nothing is dispatched in between. *)
Theorem selection_capture_precedes_deletion action st :
  toolbar_in_sync st ->
  selection_in_paragraph st ->
  selectedText st <> [] ->
  let from := fst (selection st) in
  let to := snd (selection st) in
  let originalText := PM.textBetween from to (doc st) in
  let r := handleSelectionAiAction action st in
  outcome r = Returned tt
  /\ originalText <> []
  /\ events r
     = [WriteSelectionRange (Some (from, to));
        WriteIsReplacing true;
        WriteOriginalText originalText;
        Dispatched [PM.Delete from to; PM.SetSelection from];
        OnUpdate (PM.text (doc (final r)));
        WriteStartPos (Some from);
        WriteLastInserted 0;
        OnGenerate action originalText]
  /\ doc (final r) = firstn (from - 1) (doc st) ++ skipn (to - 1) (doc st)
  /\ aiTextStartPosRef (final r) = Some from
  /\ lastInsertedLengthRef (final r) = 0
  /\ isReplacingSelectionRef (final r) = true
  /\ originalTextRef (final r) = originalText.
Proof.
  intros Hsync Hsel Hne from to originalText r.
  destruct (@handleSelectionAiAction_spec action st Hsync Hsel Hne)
    as (Ho & _ & Hcap & Hd & _ & Ha & Hl & Hi & Hot & _ & He).
  fold from to originalText r in Ho, Hcap, Hd, Ha, Hl, Hi, Hot, He.
  rewrite <- Hcap.
  repeat split; try assumption; rewrite Hcap; assumption.
Qed.

Lemma selection_capture_precedes_deletion_witness :
  let r := handleSelectionAiAction expand Scenario.selected_start in
  outcome r = Returned tt
  /\ originalTextRef (final r) = Js.lit "hello world"
  /\ aiTextStartPosRef (final r) = Some 1.
Proof.
  pose proof (@selection_capture_precedes_deletion expand
                Scenario.selected_start) as H.
  cbv zeta in *.
  assert (H1 : toolbar_in_sync Scenario.selected_start) by reflexivity.
  assert (H2 : selection_in_paragraph Scenario.selected_start)
    by (unfold selection_in_paragraph; simpl; lia).
  assert (H3 : selectedText Scenario.selected_start <> [])
    by (simpl; discriminate).
  destruct (H H1 H2 H3) as (Ho & _ & _ & _ & Ha & _ & _ & Hot).
  split; [exact Ho |]. split; [exact Hot | exact Ha].
Defined.

(** C9, amended.  Without an anchor ([aiTextStartPosRef] is null: no
    fragment was inserted and no selection action opened the session),
    accept, reject and modify dispatch no transaction and leave
    document and selection as they are; accept and reject clear the
    session refs, modify writes none. *)
Theorem decisions_without_anchor st action :
  aiTextStartPosRef st = None ->
  (let r := handleAccept st in
   outcome r = Returned tt
   /\ doc (final r) = doc st
   /\ selection (final r) = selection st
   /\ filter is_dispatch (events r) = []
   /\ aiTextStartPosRef (final r) = None
   /\ isReplacingSelectionRef (final r) = false
   /\ originalTextRef (final r) = []
   /\ selectionRangeRef (final r) = None)
  /\ (let r := handleReject st in
      outcome r = Returned tt
      /\ doc (final r) = doc st
      /\ selection (final r) = selection st
      /\ filter is_dispatch (events r) = []
      /\ aiTextStartPosRef (final r) = None
      /\ lastInsertedLengthRef (final r) = 0
      /\ isReplacingSelectionRef (final r) = false
      /\ originalTextRef (final r) = []
      /\ selectionRangeRef (final r) = None)
  /\ (let r := handleModify action st in
      outcome r = Returned tt
      /\ doc (final r) = doc st
      /\ selection (final r) = selection st
      /\ events r = [OnModify action]
      /\ aiTextStartPosRef (final r) = None).
Proof.
  intros Hnone. repeat apply conj.
  1-8: destruct (handleAccept_spec st)
         as (Ho & Hd & Hs & _ & Ha & Hr & Hi & Hot & He);
       rewrite Hnone in Hd, He; assumption.
  1-9: destruct (handleReject_no_anchor st Hnone)
         as (Ho & Hd & Hs & _ & Hl & Ha & Hr & Hi & Hot & He);
       assumption.
  all: destruct (handleModify_no_anchor action st Hnone)
         as (Ho & Hd & Hs & _ & _ & Ha & _ & _ & _ & He);
       assumption.
Qed.

Lemma decisions_without_anchor_witness :
  doc (final (handleReject Scenario.continuation_start))
  = Scenario.plain "Hi".
Proof.
  pose proof (@decisions_without_anchor Scenario.continuation_start
                shorten) as H.
  cbv zeta in H.
  assert (H0 : aiTextStartPosRef Scenario.continuation_start = None)
    by reflexivity.
  destruct (H H0) as (_ & (_ & Hd & _) & _).
  exact Hd.
Defined.

(** C9 as stated fails: "Say hello" with "hello" selected.  After the
    selection action no fragment has been inserted and the counter is
    0, but the anchor is set; a reject then dispatches a transaction
    and puts the selected text back, so the document is not what it
    was when the reject was issued. *)
Lemma reject_before_first_fragment_restores_selection :
  let started :=
    final (handleSelectionAiAction expand
             (mounted (Scenario.plain "Say hello") 5 10)) in
  let r := handleReject started in
  lastInsertedLengthRef started = 0
  /\ aiTextStartPosRef started = Some 5
  /\ doc started = Scenario.plain "Say "
  /\ outcome r = Returned tt
  /\ filter is_dispatch (events r)
     = [Dispatched [PM.Delete 5 5; PM.Insert 5 (Js.lit "hello") false]]
  /\ doc (final r) = Scenario.plain "Say hello"
  /\ doc (final r) <> doc started.
Proof.
  cbv zeta. repeat split; try reflexivity.
  vm_compute. discriminate.
Qed.




(** C2 as stated fails: the fragment "a  b" is cleaned before it is
    inserted, so the accepted text is "a b", which is not the fragment
    that was delivered. *)
Lemma accepted_text_differs_from_fragments :
  let r := Scenario.spaced_session Scenario.spaced_start in
  let startPosition := 1 in
  let emittedLength := lastInsertedLengthRef (final r) in
  outcome r = Returned tt
  /\ emittedLength = 4
  /\ PM.text (doc (final r)) = Js.lit "a b"
  /\ PM.textBetween startPosition (startPosition + emittedLength)
       (doc (final r))
     <> concat [Js.lit "a  b"].
Proof.
  cbv zeta. repeat split. vm_compute. discriminate.
Qed.

(** C2, amended.  When the editor's cleaning keeps the length of every
    delivered fragment, the plain text of the range of an accepted
    session is the concatenation, in arrival order, of the cleaned
    fragments; it is the concatenation of the fragments themselves when
    cleaning leaves each as it is. *)
Theorem accepted_text_is_cleaned_fragments frags st pre post :
  length_kept frags ->
  doc st = pre ++ post ->
  lastInsertedLengthRef st = 0 ->
  anchor_after st = length pre + 1 ->
  let r := (deliver [] frags ;; handleAccept) st in
  let startPosition := length pre + 1 in
  let emittedLength := length (concat frags) in
  outcome r = Returned tt
  /\ lastInsertedLengthRef (final r) = emittedLength
  /\ PM.textBetween startPosition (startPosition + emittedLength)
       (doc (final r))
     = concat (map Js.clean frags)
  /\ (clean_already frags ->
      PM.textBetween startPosition (startPosition + emittedLength)
        (doc (final r))
      = concat frags).
Proof.
  intros Hk Hdoc Hlast Hanchor r startPosition emittedLength.
  destruct (@deliver_run frags [] st pre [] post Hk Hdoc eq_refl Hlast)
    as (Do & Dd & Dl & _).
  { unfold anchor_after in Hanchor.
    destruct (aiTextStartPosRef st); [exact Hanchor |].
    split; [exact Hanchor | reflexivity]. }
  destruct (bind_returned (deliver [] frags) (fun _ => handleAccept) st Do)
    as (Bo & Bf & _).
  set (st1 := final (deliver [] frags st)) in *.
  destruct (handleAccept_spec st1) as (Ao & _ & _ & Al & _).
  assert (Htext :
    PM.textBetween startPosition (startPosition + emittedLength)
      (doc (final r))
    = concat (map Js.clean frags)).
  { subst r. rewrite Bf.
    rewrite (@textBetween_text _ _ _ (doc st1) (handleAccept_text st1)).
    rewrite Dd. cbn [app]. subst startPosition emittedLength.
    rewrite <- (length_kept_concat Hk).
    rewrite <- (length_text_node (concat (map Js.clean frags)) true).
    rewrite textBetween_app. apply text_text_node. }
  subst r. rewrite Bo, Ao. rewrite Bf in Htext |- *. rewrite Al, Dl.
  repeat split.
  - exact Htext.
  - intros Hc. rewrite Htext. apply f_equal, clean_already_map, Hc.
Qed.

Lemma accepted_text_is_cleaned_fragments_witness :
  let r := (deliver [] [Js.lit "it "; Js.lit "is sunny"] ;; handleAccept)
             Scenario.continuation_start in
  PM.textBetween 3 (3 + 11) (doc (final r)) = Js.lit "it is sunny".
Proof.
  pose proof (@accepted_text_is_cleaned_fragments
                [Js.lit "it "; Js.lit "is sunny"]
                Scenario.continuation_start
                (Scenario.plain "Hi") []) as H.
  cbv zeta in *.
  assert (H1 : length_kept [Js.lit "it "; Js.lit "is sunny"])
    by (repeat constructor).
  assert (H2 : doc Scenario.continuation_start = Scenario.plain "Hi" ++ [])
    by reflexivity.
  assert (H3 : lastInsertedLengthRef Scenario.continuation_start = 0)
    by reflexivity.
  assert (H4 : anchor_after Scenario.continuation_start
               = length (Scenario.plain "Hi") + 1)
    by reflexivity.
  exact (proj1 (proj2 (proj2 (H H1 H2 H3 H4)))).
Defined.

(** C8.  A stream fails behind some chunks, be it the continuation or
    the modification stream: the adapter hands the error on behind the
    fragments of those chunks; the machine, whatever mode it is in
    (streaming or modifying while a stream is open), goes to idle and
    holds the error; the fragments that were inserted stand in the
    document with the generated mark, and the effect, run on a cleared
    [apiText] or on one that holds no more than was inserted,
    dispatches nothing and leaves the document as it is. *)
Theorem stream_failure_keeps_partial_text
    (E : Type) (chunks : list Js.str) (e : E)
    (m : Lifecycle.Machine E) st pre post :
  doc st = pre ++ post ->
  lastInsertedLengthRef st = 0 ->
  anchor_after st = length pre + 1 ->
  let continuation :=
    Adapter.generateContinuationStream chunks (Adapter.Failed e) in
  let modification :=
    Adapter.modifyTextStream chunks (Adapter.Failed e) in
  let fragments := Adapter.yielded continuation in
  let delivered := deliver [] fragments st in
  Adapter.ending continuation = Adapter.Failed e
  /\ Adapter.ending modification = Adapter.Failed e
  /\ Adapter.yielded modification = fragments
  /\ Lifecycle.transition m (Lifecycle.streamFails e)
     = Lifecycle.mkMachine Lifecycle.idle (Some e)
  /\ outcome delivered = Returned tt
  /\ doc (final delivered)
     = pre ++ PM.text_node (concat fragments) true ++ post
  /\ forall api,
       match api with
       | Some t => length t <= length (concat fragments)
       | None => True
       end ->
       let r := apiTextEffect api (final delivered) in
       outcome r = Returned tt
       /\ filter is_dispatch (events r) = []
       /\ doc (final r)
          = pre ++ PM.text_node (concat fragments) true ++ post.
Proof.
  intros Hdoc Hlast Hanchor continuation modification fragments delivered.
  assert (Hc : clean_already fragments)
    by (apply flat_map_emit_Forall, emit_chunk_clean_already).
  destruct (@deliver_run fragments [] st pre [] post
              (clean_already_length_kept Hc) Hdoc eq_refl Hlast)
    as (Do & Dd & Dl & _).
  { unfold anchor_after in Hanchor.
    destruct (aiTextStartPosRef st); [exact Hanchor |].
    split; [exact Hanchor | reflexivity]. }
  fold delivered in Do, Dd, Dl.
  rewrite (clean_already_map Hc) in Dd. cbn [app] in Dd, Dl.
  split; [reflexivity |]. split; [reflexivity |].
  split; [reflexivity |].
  split; [unfold Lifecycle.transition; destruct (Lifecycle.mode m);
          reflexivity |].
  split; [exact Do |]. split; [exact Dd |].
  intros api Hapi.
  assert (Hnew : match api with
                 | Some t => length t
                             <= lastInsertedLengthRef (final delivered)
                 | None => True
                 end)
    by (destruct api; [rewrite Dl; exact Hapi | exact I]).
  destruct (apiTextEffect_nothing_new (final delivered) api Hnew)
    as (Ho & Hd & _ & _ & _ & _ & _ & _ & He & _).
  split; [exact Ho |]. split; [exact He |].
  rewrite Hd. exact Dd.
Qed.

Lemma stream_failure_keeps_partial_text_witness :
  Lifecycle.transition (Lifecycle.mkMachine Lifecycle.modifying None)
                       (Lifecycle.streamFails tt)
  = Lifecycle.mkMachine Lifecycle.idle (Some tt)
  /\ doc (final (apiTextEffect None
                   (final (deliver []
                             (Adapter.yielded
                                (Adapter.modifyTextStream
                                   [Js.lit "So  far"] (Adapter.Failed tt)))
                             Scenario.continuation_start))))
     = Scenario.plain "Hi" ++ Scenario.italic "So far" ++ [].
Proof.
  pose proof (@stream_failure_keeps_partial_text unit
                [Js.lit "So  far"] tt
                (Lifecycle.mkMachine Lifecycle.modifying None)
                Scenario.continuation_start
                (Scenario.plain "Hi") []) as H.
  cbv zeta in H.
  assert (H2 : doc Scenario.continuation_start = Scenario.plain "Hi" ++ [])
    by reflexivity.
  assert (H3 : lastInsertedLengthRef Scenario.continuation_start = 0)
    by reflexivity.
  assert (H4 : anchor_after Scenario.continuation_start
               = length (Scenario.plain "Hi") + 1)
    by reflexivity.
  destruct (H H2 H3 H4) as (_ & _ & Hy & Hm & _ & _ & Hall).
  split; [exact Hm |].
  rewrite Hy. exact (proj2 (proj2 (Hall None I))).
Defined.

(** C1 on "hello world!!!" with "hello world" selected.  Before the
    reject the anchor is 1 and 11 units have been counted, so the
    inserted range is [1, 12); the transaction of [handleReject]
    deletes [1, 15), to the end of the paragraph, and the user's "!!!"
    behind the selection is lost: the document ends as "hello world",
    not as "hello world!!!". *)
Theorem reject_deletes_text_behind_selection :
  let streamed :=
    (handleSelectionAiAction expand ;;
     deliver [] [Js.lit "it "; Js.lit "is sunny"])
      Scenario.reject_start in
  let r := Scenario.reject_session Scenario.reject_start in
  PM.text (doc (final streamed)) = Js.lit "it is sunny!!!"
  /\ aiTextStartPosRef (final streamed) = Some 1
  /\ lastInsertedLengthRef (final streamed) = 11
  /\ outcome r = Returned tt
  /\ filter is_dispatch (events (handleReject (final streamed)))
     = [Dispatched
          [PM.Delete 1 15; PM.Insert 1 (Js.lit "hello world") false]]
  /\ PM.text (doc (final r)) = Js.lit "hello world"
  /\ PM.text (doc (final r)) <> Js.lit "hello world!!!".
Proof.
  cbv zeta. repeat split. vm_compute. discriminate.
Qed.

(** C3 on "123456789XY" with a continuation at position 10.  The
    accumulated range is [10, 19); the transaction of [handleModify]
    deletes [10, 21), to the end of the paragraph, and takes the user's
    "XY" with it.  The anchor stays 10 and the new stream is inserted
    there: the document ends as "123456789ok", not as
    "123456789okXY". *)
Theorem modify_deletes_text_behind_suggestion :
  let streamed :=
    deliver [] [Js.lit "long text"] Scenario.modify_start in
  let r := Scenario.modify_session Scenario.modify_start in
  PM.text (doc (final streamed)) = Js.lit "123456789long textXY"
  /\ aiTextStartPosRef (final streamed) = Some 10
  /\ lastInsertedLengthRef (final streamed) = 9
  /\ outcome r = Returned tt
  /\ filter is_dispatch (events r)
     = [Dispatched [PM.Insert 10 (Js.lit "long text") true];
        Dispatched [PM.Delete 10 21];
        Dispatched [PM.Insert 10 (Js.lit "ok") true]]
  /\ aiTextStartPosRef (final r) = Some 10
  /\ PM.text (doc (final r)) = Js.lit "123456789ok"
  /\ PM.text (doc (final r)) <> Js.lit "123456789okXY".
Proof.
  cbv zeta. repeat split. vm_compute. discriminate.
Qed.

(** C5 on the user's italic "note" with a continuation in front of it.
    The range of the session is [1, 4); the transaction of
    [handleAccept] removes the mark from [1, 8), to the end of the
    paragraph, so "note" loses its italics as well.  The text is
    untouched. *)
Theorem accept_unmarks_text_behind_suggestion :
  let streamed := deliver [] [Js.lit "ok "] Scenario.accept_start in
  let r := Scenario.accept_session Scenario.accept_start in
  doc (final streamed) = Scenario.italic "ok " ++ Scenario.italic "note"
  /\ aiTextStartPosRef (final streamed) = Some 1
  /\ lastInsertedLengthRef (final streamed) = 3
  /\ outcome r = Returned tt
  /\ filter is_dispatch (events r)
     = [Dispatched [PM.Insert 1 (Js.lit "ok ") true];
        Dispatched [PM.RemoveMark 1 8]]
  /\ doc (final r) = Scenario.plain "ok " ++ Scenario.plain "note"
  /\ doc (final r) <> Scenario.plain "ok " ++ Scenario.italic "note"
  /\ PM.text (doc (final r)) = PM.text (doc (final streamed)).
Proof.
  cbv zeta. repeat split. vm_compute. discriminate.
Qed.

(** The two examples of the specification, on documents in which the
    suggestion is the end of the paragraph. *)
Example reject_restores_selection_at_end :
  let r := Scenario.reject_session Scenario.selected_start in
  outcome r = Returned tt
  /\ doc (final r) = Scenario.plain "hello world".
Proof. split; reflexivity. Qed.

Example modify_keeps_anchor_at_end :
  let r := Scenario.modify_session
             (mounted (Scenario.plain "123456789") 10 10) in
  outcome r = Returned tt
  /\ aiTextStartPosRef (final r) = Some 10
  /\ doc (final r) = Scenario.plain "123456789" ++ Scenario.italic "ok".
Proof. repeat split; reflexivity. Qed.

End Properties.

(* ================================================================== *)
(** ** Facts about words and white space *)

Section TextFacts.
Import Js Text.

Lemma eqb_eq a b : eqb a b = true <-> a = b.
Proof.
  revert b. induction a as [| x a IH]; intros [| y b]; cbn [eqb];
    try (split; [discriminate | discriminate]); [tauto |].
  rewrite andb_true_iff, N.eqb_eq, IH. split.
  - intros [-> ->]. reflexivity.
  - intros H. injection H as -> ->. split; reflexivity.
Qed.

Lemma eqb_refl a : eqb a a = true.
Proof. apply eqb_eq. reflexivity. Qed.

Lemma eqb_neq a b : eqb a b = false <-> a <> b.
Proof.
  rewrite <- eqb_eq. destruct (eqb a b); split; congruence.
Qed.

Lemma eqb_sym a b : eqb a b = eqb b a.
Proof.
  destruct (eqb a b) eqn:H1; destruct (eqb b a) eqn:H2; try reflexivity.
  - apply eqb_eq in H1. subst. rewrite eqb_refl in H2. discriminate.
  - apply eqb_eq in H2. subst. rewrite eqb_refl in H1. discriminate.
Qed.

Lemma count_words_trim_start s :
  count_words false (trim_start s) = count_words false s.
Proof.
  induction s as [| c s IH]; [reflexivity |].
  cbn [trim_start]. destruct (is_space c) eqn:Hc; [| reflexivity].
  cbn [count_words]. rewrite Hc. exact IH.
Qed.

Lemma count_words_cons b c s :
  count_words b (c :: s)
  = if is_space c then count_words false s
    else (if b then 0 else 1) + count_words true s.
Proof. reflexivity. Qed.

Lemma count_words_trim_end s :
  forall b, count_words b (trim_end s) = count_words b s.
Proof.
  induction s as [| c s IH]; intros b; [reflexivity |].
  cbn [trim_end]. destruct (trim_end s) as [| x r] eqn:Ht.
  - destruct (is_space c) eqn:Hc; cbn [count_words]; rewrite Hc.
    + rewrite <- IH. reflexivity.
    + rewrite <- IH. reflexivity.
  - rewrite (count_words_cons b c (x :: r)), (count_words_cons b c s).
    rewrite !IH. reflexivity.
Qed.

Lemma trim_end_ends_in_ink s : ends_in_ink (trim_end s) = true.
Proof.
  induction s as [| c s IH]; [reflexivity |].
  cbn [trim_end]. destruct (trim_end s) as [| x r].
  - destruct (is_space c) eqn:Hc; cbn [ends_in_ink]; [reflexivity |].
    rewrite Hc. reflexivity.
  - exact IH.
Qed.

Lemma trim_start_head s :
  match trim_start s with
  | [] => True
  | c :: _ => is_space c = false
  end.
Proof.
  induction s as [| c s IH]; [exact I |].
  cbn [trim_start]. destruct (is_space c) eqn:Hc; [exact IH | exact Hc].
Qed.

Lemma trim_end_head c s :
  is_space c = false -> exists r, trim_end (c :: s) = c :: r.
Proof.
  intros Hc. cbn [trim_end]. destruct (trim_end s) as [| x r].
  - rewrite Hc. exists []. reflexivity.
  - exists (x :: r). reflexivity.
Qed.

Lemma trim_head s :
  match trim s with
  | [] => True
  | c :: _ => is_space c = false
  end.
Proof.
  unfold trim. pose proof (trim_start_head s) as H.
  destruct (trim_start s) as [| c t]; [exact I |].
  destruct (@trim_end_head c t H) as [r ->]. exact H.
Qed.

Lemma ends_in_ink_tail c s :
  ends_in_ink (c :: s) = true -> ends_in_ink s = true.
Proof. destruct s; [reflexivity | intros H; exact H]. Qed.

(** The pieces of [split] and the words, for a string without white
    space at its end. *)
Lemma split_spaces_length s :
  ends_in_ink s = true ->
  (forall cur, s <> [] ->
               length (split_spaces true cur s) = count_words false s)
  /\ (forall cur, length (split_spaces false cur s)
                  = 1 + count_words true s).
Proof.
  induction s as [| c s IH]; intros He.
  - split; [congruence | reflexivity].
  - assert (Hs : is_space c = true -> s <> []).
    { intros Hc ->. cbn [ends_in_ink] in He. rewrite Hc in He.
      discriminate. }
    destruct (IH (@ends_in_ink_tail _ _ He)) as [IH1 IH2].
    split; intros cur; [intros _ |]; cbn [split_spaces count_words];
      destruct (is_space c) eqn:Hc.
    + apply IH1, Hs. reflexivity.
    + apply IH2.
    + cbn [length]. rewrite IH1 by (apply Hs; reflexivity). reflexivity.
    + apply IH2.
Qed.

Lemma count_words_all_space s :
  forall b, forallb is_space s = true -> count_words b s = 0.
Proof.
  induction s as [| c s IH]; intros b H; [reflexivity |].
  cbn [forallb] in H. apply andb_true_iff in H. destruct H as [Hc Hs].
  cbn [count_words]. rewrite Hc. apply IH, Hs.
Qed.

Lemma count_words_zero s :
  count_words false s = 0 <-> forallb is_space s = true.
Proof.
  split; [| apply count_words_all_space].
  induction s as [| c s IH]; [reflexivity |].
  cbn [count_words forallb]. destruct (is_space c); [exact IH |].
  discriminate.
Qed.

Lemma count_words_length s :
  2 * count_words true s <= length s
  /\ 2 * count_words false s <= length s + 1.
Proof.
  induction s as [| c s [IH1 IH2]]; [cbn; lia |].
  cbn [count_words length]. destruct (is_space c); lia.
Qed.

Lemma count_words_replace_newlines s :
  forall w r, (r = true -> w = false) ->
    count_words w (replace_newlines r s) = count_words w s.
Proof.
  induction s as [| c s IH]; intros w r Hr; [reflexivity |].
  cbn [replace_newlines]. destruct (is_newline c) eqn:Hn.
  - pose proof (is_newline_is_space _ Hn) as Hc.
    cbn [count_words]. rewrite Hc. destruct r.
    + rewrite (Hr eq_refl). apply IH. reflexivity.
    + cbn [count_words]. rewrite space_is_space. apply IH. reflexivity.
  - cbn [count_words]. destruct (is_space c).
    + apply IH. discriminate.
    + rewrite IH by discriminate. reflexivity.
Qed.

Lemma count_words_replace_spaces s :
  forall w r, (r = true -> w = false) ->
    count_words w (replace_spaces r s) = count_words w s.
Proof.
  induction s as [| c s IH]; intros w r Hr; [reflexivity |].
  cbn [replace_spaces]. destruct (is_space c) eqn:Hc.
  - destruct r.
    + rewrite (Hr eq_refl). cbn [count_words]. rewrite Hc.
      apply IH. reflexivity.
    + destruct s as [| d s']; [reflexivity |].
      destruct (is_space d) eqn:Hd.
      * cbn [count_words]. rewrite space_is_space, Hc, Hd.
        rewrite (IH false true) by reflexivity.
        cbn [count_words]. rewrite Hd. reflexivity.
      * cbn [count_words]. rewrite Hc, Hd.
        rewrite (IH false false) by discriminate.
        cbn [count_words]. rewrite Hd. reflexivity.
  - cbn [count_words]. rewrite Hc. rewrite IH by discriminate. reflexivity.
Qed.

Lemma count_words_clean s :
  count_words false (clean s) = count_words false s.
Proof.
  unfold clean.
  rewrite count_words_replace_spaces by discriminate.
  apply count_words_replace_newlines. discriminate.
Qed.

Lemma wordCount_count_words s : App.wordCount s = count_words false s.
Proof.
  unfold App.wordCount.
  assert (Hc : count_words false (trim s) = count_words false s).
  { unfold trim. rewrite count_words_trim_end. apply count_words_trim_start. }
  pose proof (trim_head s) as Hh.
  pose proof (trim_end_ends_in_ink (trim_start s)) as He. fold (trim s) in He.
  destruct (trim s) as [| c t]; cbn [truthy].
  - exact Hc.
  - rewrite <- Hc. cbn [split_spaces count_words]. rewrite Hh.
    destruct (@split_spaces_length t (@ends_in_ink_tail _ _ He)) as [_ H2].
    apply H2.
Qed.

End TextFacts.

(* ================================================================== *)
(** ** More facts about cleaning *)

Section CleanMore.
Import Js Text.

Lemma replace_newlines_length b s :
  length (replace_newlines b s) <= length s.
Proof.
  revert b. induction s as [| c s IH]; intros b; [apply le_n |].
  cbn [replace_newlines].
  pose proof (IH true) as Ht. pose proof (IH false) as Hf.
  destruct (is_newline c); [destruct b |]; cbn [length]; lia.
Qed.

Lemma replace_spaces_length b s :
  length (replace_spaces b s) <= length s.
Proof.
  revert b. induction s as [| c s IH]; intros b; [apply le_n |].
  cbn [replace_spaces].
  pose proof (IH true) as Ht. pose proof (IH false) as Hf.
  destruct (is_space c); [destruct b |]; cbn [length]; try lia.
  destruct s as [| d s']; [cbn; lia |].
  destruct (is_space d); cbn [length] in *; lia.
Qed.

Lemma clean_length s : length (clean s) <= length s.
Proof.
  unfold clean.
  pose proof (replace_spaces_length false (replace_newlines false s)).
  pose proof (replace_newlines_length false s). lia.
Qed.

Lemma forallb_app_true {A} (f : A -> bool) a b :
  forallb f (a ++ b) = true -> forallb f a = true /\ forallb f b = true.
Proof. rewrite forallb_app. apply andb_true_iff. Qed.

Lemma no_space_pair_app a b :
  no_space_pair (a ++ b) = true ->
  no_space_pair a = true /\ no_space_pair b = true.
Proof.
  induction a as [| c a IH]; intros H; [split; [reflexivity | exact H] |].
  cbn [app] in H.
  destruct (IH (@no_space_pair_tail _ _ H)) as [Ha Hb].
  split; [| exact Hb].
  destruct a as [| d a']; [reflexivity |].
  cbn [app] in H. rewrite no_space_pair_cons2 in H |- *.
  apply andb_true_iff in H. destruct H as [Hcd _].
  rewrite Hcd. exact Ha.
Qed.

Lemma normalized_app a b :
  normalized (a ++ b) -> normalized a /\ normalized b.
Proof.
  intros [Hn Hp].
  destruct (forallb_app_true _ _ _ Hn) as [Hna Hnb].
  destruct (no_space_pair_app _ _ Hp) as [Hpa Hpb].
  repeat split; assumption.
Qed.

Lemma normalized_concat frags :
  normalized (concat frags) -> Forall normalized frags.
Proof.
  induction frags as [| f fs IH]; intros H; [constructor |].
  cbn [concat] in H. destruct (normalized_app _ _ H) as [Hf Hfs].
  constructor; [exact Hf | apply IH, Hfs].
Qed.

Lemma ends_in_space_cons c s :
  s <> [] -> ends_in_space (c :: s) = ends_in_space s.
Proof. destruct s; [congruence | reflexivity]. Qed.

Lemma replace_newlines_nonempty c s : replace_newlines false (c :: s) <> [].
Proof. cbn [replace_newlines]. destruct (is_newline c); discriminate. Qed.

Lemma replace_spaces_nonempty c s : replace_spaces false (c :: s) <> [].
Proof.
  cbn [replace_spaces]. destruct (is_space c); [| discriminate].
  destruct s as [| d s']; [discriminate |].
  destruct (is_space d); discriminate.
Qed.

Lemma ends_in_space_one_more c l :
  (l = [] -> is_space c = true) ->
  (l = [] \/ ends_in_space l = true) ->
  ends_in_space (c :: l) = true.
Proof.
  intros Hc [-> | Hl].
  - cbn. apply Hc. reflexivity.
  - destruct l as [| d l']; [discriminate | exact Hl].
Qed.

Lemma replace_newlines_ends_in_space s :
  ends_in_space s = true ->
  forall r, replace_newlines r s = []
            \/ ends_in_space (replace_newlines r s) = true.
Proof.
  induction s as [| c s IH]; intros He r; [discriminate |].
  destruct s as [| d s'].
  - cbn [ends_in_space] in He. cbn [replace_newlines].
    destruct (is_newline c); [destruct r |]; cbn [ends_in_space];
      auto using space_is_space.
  - rewrite ends_in_space_cons in He by discriminate.
    specialize (IH He).
    change (replace_newlines r (c :: d :: s'))
      with (if is_newline c
            then if r then replace_newlines true (d :: s')
                 else space :: replace_newlines true (d :: s')
            else c :: replace_newlines false (d :: s')).
    destruct (is_newline c); [destruct r |].
    + apply IH.
    + right. apply ends_in_space_one_more; [| apply IH].
      intros _. apply space_is_space.
    + right. apply ends_in_space_one_more; [| apply IH].
      intros H. exfalso. exact (replace_newlines_nonempty _ _ H).
Qed.

Lemma replace_spaces_ends_in_space s :
  ends_in_space s = true ->
  forall r, replace_spaces r s = []
            \/ ends_in_space (replace_spaces r s) = true.
Proof.
  induction s as [| c s IH]; intros He r; [discriminate |].
  destruct s as [| d s'].
  - cbn [ends_in_space] in He. cbn [replace_spaces]. rewrite He.
    destruct r; [left; reflexivity |]. right. cbn. exact He.
  - rewrite ends_in_space_cons in He by discriminate.
    specialize (IH He).
    assert (Hcons : forall x,
              ends_in_space (x :: replace_spaces false (d :: s')) = true).
    { intros x. apply ends_in_space_one_more; [| apply IH].
      intros H. exfalso. exact (replace_spaces_nonempty _ _ H). }
    change (replace_spaces r (c :: d :: s'))
      with (if is_space c
            then if r then replace_spaces true (d :: s')
                 else if is_space d
                      then space :: replace_spaces true (d :: s')
                      else c :: replace_spaces false (d :: s')
            else c :: replace_spaces false (d :: s')).
    destruct (is_space c); [destruct r; [| destruct (is_space d)] |].
    + apply IH.
    + right. apply ends_in_space_one_more; [| apply IH].
      intros _. apply space_is_space.
    + right. apply Hcons.
    + right. apply Hcons.
Qed.

Lemma clean_ends_in_space s :
  ends_in_space s = true -> ends_in_space (clean s) = true.
Proof.
  intros He. unfold clean.
  destruct s as [| c s']; [discriminate |].
  destruct (replace_newlines_ends_in_space _ He false) as [H | H];
    [exfalso; exact (replace_newlines_nonempty _ _ H) |].
  destruct (replace_newlines false (c :: s')) as [| x u] eqn:Hu;
    [discriminate |].
  destruct (replace_spaces_ends_in_space _ H false) as [H' | H'];
    [exfalso; exact (replace_spaces_nonempty _ _ H') | exact H'].
Qed.

Lemma clean_starts_in_space s :
  starts_in_space s = true -> starts_in_space (clean s) = true.
Proof.
  destruct s as [| c s]; [discriminate |]. cbn [starts_in_space].
  intros Hc. unfold clean. cbn [replace_newlines].
  assert (H : forall x r, is_space x = true ->
                          starts_in_space (replace_spaces false (x :: r))
                          = true).
  { intros x r Hx. cbn [replace_spaces]. rewrite Hx.
    destruct r as [| d r']; [exact Hx |].
    destruct (is_space d); [apply space_is_space | exact Hx]. }
  destruct (is_newline c); apply H; [apply space_is_space | exact Hc].
Qed.

Lemma no_space_pair_meeting a b :
  ends_in_space a = true -> starts_in_space b = true ->
  no_space_pair (a ++ b) = false.
Proof.
  intros Ha Hb. destruct b as [| y b]; [discriminate |].
  cbn [starts_in_space] in Hb.
  induction a as [| c a IH]; [discriminate |].
  destruct a as [| d a'].
  - cbn [ends_in_space] in Ha. cbn [app].
    rewrite no_space_pair_cons2, Ha, Hb. reflexivity.
  - rewrite ends_in_space_cons in Ha by discriminate.
    cbn [app]. rewrite no_space_pair_cons2.
    cbn [app] in IH. rewrite (IH Ha). apply andb_false_r.
Qed.

Lemma ends_in_space_snoc a x :
  is_space x = true -> ends_in_space (a ++ [x]) = true.
Proof.
  intros Hx. induction a as [| c a IH]; [exact Hx |].
  cbn [app]. rewrite ends_in_space_cons; [exact IH |].
  destruct a; discriminate.
Qed.

End CleanMore.

(* ================================================================== *)
(** ** More facts about the handlers *)

Section HandlerMore.
Import Editor.
Local Open Scope editor_scope.

(** The events of a selection action that runs. *)
Lemma selection_capture_precedes_deletion_facts action st :
  toolbar_in_sync st ->
  selection_in_paragraph st ->
  selectedText st <> [] ->
  let from := fst (selection st) in
  let to := snd (selection st) in
  let captured := PM.textBetween from to (doc st) in
  captured <> []
  /\ events (handleSelectionAiAction action st)
     = [WriteSelectionRange (Some (from, to));
        WriteIsReplacing true;
        WriteOriginalText captured;
        Dispatched [PM.Delete from to; PM.SetSelection from];
        OnUpdate (PM.text (doc (final (handleSelectionAiAction action st))));
        WriteStartPos (Some from);
        WriteLastInserted 0;
        OnGenerate action captured].
Proof.
  intros Hsync Hsel Hne from to captured.
  destruct (@handleSelectionAiAction_spec action st Hsync Hsel Hne)
    as (_ & _ & Hcap & _ & _ & _ & _ & _ & _ & _ & He).
  split; [| exact He].
  fold from to captured in Hcap. rewrite <- Hcap. exact Hne.
Qed.

End HandlerMore.

(* ================================================================== *)
(** ** Further properties of the editor and the adapter *)

Section EditorProperties.
Import Editor.
Import String.StringSyntax.
Local Open Scope string_scope.
Local Open Scope editor_scope.

(** X1.  After any transaction the selection toolbar is shown exactly
    for selections of more than three units, and for a shorter selection
    a selection action does nothing: no write, no edit, no request. *)
Theorem short_selection_starts_no_session tr st action :
  outcome (dispatch tr st) = Returned tt ->
  let st' := final (dispatch tr st) in
  let width := snd (selection st') - fst (selection st') in
  (showSelectionToolbar st' = true <-> 3 < width)
  /\ (width <= 3 ->
      handleSelectionAiAction action st' = mkResult (Returned tt) st' []).
Proof.
  unfold dispatch.
  destruct (PM.steps tr (PM.mkTr (doc st) (selection st) false))
    as [[d [from to] changed] |]; [| discriminate].
  intros _.
  cbv beta iota zeta delta
    [PM.tr_selection PM.tr_doc PM.docChanged final selection
     showSelectionToolbar fst snd].
  split.
  - rewrite andb_true_iff, negb_true_iff, Nat.eqb_neq, Nat.ltb_lt. lia.
  - intros Hw. apply handleSelectionAiAction_empty.
    cbn [selectedText].
    replace (3 <? to - from) with false
      by (symmetry; apply Nat.ltb_ge; exact Hw).
    rewrite andb_false_r. reflexivity.
Qed.

Lemma short_selection_starts_no_session_witness :
  let st' := final (dispatch [PM.SetSelection 2] Scenario.selected_start) in
  handleSelectionAiAction expand st' = mkResult (Returned tt) st' [].
Proof.
  pose proof (@short_selection_starts_no_session [PM.SetSelection 2]
                Scenario.selected_start expand) as H.
  cbv zeta in H.
  assert (H0 : outcome (dispatch [PM.SetSelection 2] Scenario.selected_start)
               = Returned tt) by reflexivity.
  destruct (H H0) as [_ Hshort].
  apply Hshort. simpl. lia.
Defined.

(** X2.  A selection session that is rejected leaves the text of the
    document up to the end of the selection; when the selection reaches
    the end of the paragraph the whole text is as it was before. *)
Theorem reject_restores_text_up_to_selection_end action frags st :
  toolbar_in_sync st ->
  selection_in_paragraph st ->
  selectedText st <> [] ->
  length_kept frags ->
  let r := (handleSelectionAiAction action ;;
            deliver [] frags ;;
            handleReject) st in
  outcome r = Returned tt
  /\ PM.text (doc (final r))
     = PM.text (firstn (snd (selection st) - 1) (doc st))
  /\ (snd (selection st) = length (doc st) + 1 ->
      PM.text (doc (final r)) = PM.text (doc st)).
Proof.
  intros Hsync Hsel Hne Hk r.
  destruct (@reject_after_selection action frags st Hsync Hsel Hne Hk)
    as [Ho Hd].
  fold r in Ho, Hd.
  destruct (@handleSelectionAiAction_spec action st Hsync Hsel Hne)
    as (_ & Hlt & _).
  destruct Hsel as (H1 & _ & H3).
  set (from := fst (selection st)) in *.
  set (to := snd (selection st)) in *.
  assert (Ht : PM.text (doc (final r)) = PM.text (firstn (to - 1) (doc st))).
  { rewrite Hd, text_app, text_text_node. unfold PM.textBetween.
    rewrite <- text_app. f_equal.
    rewrite <- (firstn_skipn (from - 1) (firstn (to - 1) (doc st))).
    rewrite firstn_firstn, skipn_firstn_comm.
    replace (Nat.min (from - 1) (to - 1)) with (from - 1) by lia.
    replace (to - 1 - (from - 1)) with (to - from) by lia.
    reflexivity. }
  repeat split; [exact Ho | exact Ht |].
  intros Hend. rewrite Ht, Hend.
  replace (length (doc st) + 1 - 1) with (length (doc st)) by lia.
  rewrite firstn_all. reflexivity.
Qed.

Lemma reject_restores_text_up_to_selection_end_witness :
  PM.text (doc (final (Scenario.reject_session Scenario.selected_start)))
  = PM.text (doc Scenario.selected_start).
Proof.
  pose proof (@reject_restores_text_up_to_selection_end expand
                [Js.lit "it "; Js.lit "is sunny"]
                Scenario.selected_start) as H.
  cbv zeta in H.
  assert (H1 : toolbar_in_sync Scenario.selected_start) by reflexivity.
  assert (H2 : selection_in_paragraph Scenario.selected_start)
    by (unfold selection_in_paragraph; simpl; lia).
  assert (H3 : selectedText Scenario.selected_start <> [])
    by (simpl; discriminate).
  assert (H4 : length_kept [Js.lit "it "; Js.lit "is sunny"])
    by (repeat constructor).
  destruct (H H1 H2 H3 H4) as (_ & _ & Hend).
  apply Hend. reflexivity.
Defined.

(** X3.  [handleModify] with an anchor inside the paragraph keeps the
    anchor and counts from 0 again, and once [apiText] has been cleared
    the first chunk of the next stream is inserted at the anchor, behind
    what stood before it. *)
Theorem modify_restarts_at_anchor action st p t :
  aiTextStartPosRef st = Some p ->
  1 <= p <= length (doc st) + 1 ->
  t <> [] ->
  let st1 := final (handleModify action st) in
  let r := apiTextEffect (Some t) (final (apiTextEffect None st1)) in
  aiTextStartPosRef st1 = Some p
  /\ lastInsertedLengthRef st1 = 0
  /\ outcome r = Returned tt
  /\ filter is_dispatch (events r)
     = [Dispatched [PM.Insert p (Js.clean t) true]]
  /\ doc (final r) = firstn (p - 1) (doc st) ++ PM.text_node (Js.clean t) true
  /\ aiTextStartPosRef (final r) = Some p.
Proof.
  intros Ha Hp Ht. exact (@modify_then_fragment action st p t Ha Hp Ht).
Qed.

Lemma modify_restarts_at_anchor_witness :
  let st := final (deliver [] [Js.lit "long"] Scenario.continuation_start) in
  let st1 := final (handleModify shorten st) in
  doc (final (apiTextEffect (Some (Js.lit "ok"))
                (final (apiTextEffect None st1))))
  = firstn (3 - 1) (doc st) ++ PM.text_node (Js.clean (Js.lit "ok")) true.
Proof.
  pose proof (@modify_restarts_at_anchor shorten
                (final (deliver [] [Js.lit "long"]
                          Scenario.continuation_start))
                3 (Js.lit "ok")) as H.
  cbv zeta in H.
  assert (H1 : aiTextStartPosRef
                 (final (deliver [] [Js.lit "long"]
                           Scenario.continuation_start)) = Some 3)
    by reflexivity.
  assert (H2 : 1 <= 3 <= length (doc (final (deliver [] [Js.lit "long"]
                                    Scenario.continuation_start))) + 1)
    by (simpl; lia).
  assert (H3 : Js.lit "ok" <> []) by (simpl; discriminate).
  destruct (H H1 H2 H3) as (_ & _ & _ & _ & Hd & _).
  exact Hd.
Defined.

(** After a run of the effect that returned, the counter covers the
    text it was run on. *)
Lemma effect_counter_covers st t :
  outcome (apiTextEffect (Some t) st) = Returned tt ->
  length t <= lastInsertedLengthRef (final (apiTextEffect (Some t) st)).
Proof.
  destruct st as [d [sf st'] last start rng repl orig seltxt tb stb].
  destruct t as [| c t]; [intros _; cbn; lia |].
  unfold apiTextEffect. cbn [Js.truthy]. run_handler.
  destruct (last <? length (c :: t)) eqn:Hlt.
  - apply Nat.ltb_lt in Hlt.
    rewrite (clean_truthy _ (slice_truthy _ Hlt)).
    destruct start as [q |]; run_handler;
      repeat (match goal with
              | |- context [if ?b then _ else _] => destruct b
              end; run_handler);
      intros H; try discriminate H; apply le_n.
  - apply Nat.ltb_ge in Hlt. intros _. exact Hlt.
Qed.

(** X4.  Running the effect again on the same [apiText] inserts nothing:
    no transaction is dispatched and the document stays as the first
    run left it. *)
Theorem effect_rerun_inserts_nothing st t :
  outcome (apiTextEffect (Some t) st) = Returned tt ->
  let st1 := final (apiTextEffect (Some t) st) in
  let r := apiTextEffect (Some t) st1 in
  outcome r = Returned tt
  /\ filter is_dispatch (events r) = []
  /\ doc (final r) = doc st1
  /\ aiTextStartPosRef (final r) = aiTextStartPosRef st1.
Proof.
  intros Ho st1 r.
  destruct (@apiTextEffect_nothing_new st1 (Some t)
              (effect_counter_covers _ _ Ho))
    as (H1 & H2 & _ & H3 & _ & _ & _ & _ & H4 & _).
  repeat split; assumption.
Qed.

Lemma effect_rerun_inserts_nothing_witness :
  let st1 := final (apiTextEffect (Some (Js.lit "So"))
                      Scenario.continuation_start) in
  doc (final (apiTextEffect (Some (Js.lit "So")) st1)) = doc st1.
Proof.
  pose proof (@effect_rerun_inserts_nothing Scenario.continuation_start
                (Js.lit "So")) as H.
  cbv zeta in H.
  assert (H0 : outcome (apiTextEffect (Some (Js.lit "So"))
                          Scenario.continuation_start) = Returned tt)
    by reflexivity.
  exact (proj1 (proj2 (proj2 (H H0)))).
Defined.

(** X5.  [handleAccept] leaves the counter as it is, so a later
    [apiText] that is not longer than the accepted one is not inserted;
    once the effect has seen a cleared [apiText] the editor is back
    where a session starts: no anchor, nothing counted, no selection
    remembered, and the text of the document as accept found it. *)
Theorem accept_needs_cleared_apiText st t :
  (let r := handleAccept st in
   lastInsertedLengthRef (final r) = lastInsertedLengthRef st
   /\ (length t <= lastInsertedLengthRef st ->
       filter is_dispatch (events (apiTextEffect (Some t) (final r))) = []
       /\ doc (final (apiTextEffect (Some t) (final r))) = doc (final r)))
  /\ (let r := (handleAccept ;; apiTextEffect None) st in
      outcome r = Returned tt
      /\ PM.text (doc (final r)) = PM.text (doc st)
      /\ aiTextStartPosRef (final r) = None
      /\ lastInsertedLengthRef (final r) = 0
      /\ isReplacingSelectionRef (final r) = false
      /\ originalTextRef (final r) = []
      /\ selectionRangeRef (final r) = None).
Proof.
  destruct (handleAccept_spec st)
    as (Ao & _ & _ & Al & Aa & Ar & Ai & Aot & _).
  split.
  - cbv zeta. split; [exact Al |]. intros Hle.
    destruct (@apiTextEffect_nothing_new (final (handleAccept st)) (Some t))
      as (_ & Hd & _ & _ & _ & _ & _ & _ & He & _).
    { rewrite Al. exact Hle. }
    split; assumption.
  - destruct (bind_returned handleAccept (fun _ => apiTextEffect None) st Ao)
      as (Bo & Bf & _).
    cbv zeta. cbv beta in Bo, Bf. rewrite Bo, Bf.
    change (apiTextEffect None (final (handleAccept st)))
      with (set_lastInsertedLength 0 (final (handleAccept st))).
    cbn [set_lastInsertedLength outcome final doc aiTextStartPosRef
         lastInsertedLengthRef isReplacingSelectionRef originalTextRef
         selectionRangeRef].
    repeat split; try assumption. apply handleAccept_text.
Qed.

Lemma accept_needs_cleared_apiText_witness :
  let accepted := final (Scenario.accept_session Scenario.accept_start) in
  doc (final (apiTextEffect (Some (Js.lit "new")) accepted)) = doc accepted.
Proof.
  pose proof (@accept_needs_cleared_apiText
                (final (deliver [] [Js.lit "ok "] Scenario.accept_start))
                (Js.lit "new")) as H.
  cbv zeta in H. destruct H as [[_ H] _].
  assert (H0 : length (Js.lit "new")
               <= lastInsertedLengthRef
                    (final (deliver [] [Js.lit "ok "]
                              Scenario.accept_start)))
    by (simpl; lia).
  exact (proj2 (H H0)).
Defined.

(** X6.  A stream whose whole text is whitespace normalized ends as the
    same document however it is cut into fragments: the text itself,
    marked, at the anchor. *)
Theorem batching_keeps_document frags frags' st pre post :
  concat frags = concat frags' ->
  Js.normalized (concat frags) ->
  doc st = pre ++ post ->
  lastInsertedLengthRef st = 0 ->
  anchor_after st = length pre + 1 ->
  let r := deliver [] frags st in
  let r' := deliver [] frags' st in
  outcome r = Returned tt
  /\ outcome r' = Returned tt
  /\ doc (final r) = pre ++ PM.text_node (concat frags) true ++ post
  /\ doc (final r') = doc (final r).
Proof.
  intros Hsame Hn Hdoc Hlast Hanchor r r'.
  assert (Hrun : forall fs, Js.normalized (concat fs) ->
            outcome (deliver [] fs st) = Returned tt
            /\ doc (final (deliver [] fs st))
               = pre ++ PM.text_node (concat fs) true ++ post).
  { intros fs Hfs.
    assert (Hc : clean_already fs).
    { apply (Forall_impl _ clean_fixed), normalized_concat, Hfs. }
    destruct (@deliver_run fs [] st pre [] post
                (clean_already_length_kept Hc) Hdoc eq_refl Hlast)
      as (Do & Dd & _).
    { unfold anchor_after in Hanchor.
      destruct (aiTextStartPosRef st); [exact Hanchor |].
      split; [exact Hanchor | reflexivity]. }
    rewrite (clean_already_map Hc) in Dd. split; [exact Do | exact Dd]. }
  destruct (Hrun frags Hn) as [Ho Hd].
  assert (Hn' : Js.normalized (concat frags')) by (rewrite <- Hsame; exact Hn).
  destruct (Hrun frags' Hn') as [Ho' Hd'].
  subst r r'. rewrite Hd', Hd, Hsame. repeat split; assumption.
Qed.

Lemma batching_keeps_document_witness :
  doc (final (deliver [] [Js.lit "it is"] Scenario.continuation_start))
  = doc (final (deliver [] [Js.lit "it"; Js.lit " "; Js.lit "is"]
                  Scenario.continuation_start)).
Proof.
  pose proof (@batching_keeps_document
                [Js.lit "it"; Js.lit " "; Js.lit "is"] [Js.lit "it is"]
                Scenario.continuation_start (Scenario.plain "Hi") []) as H.
  cbv zeta in H.
  assert (H1 : concat [Js.lit "it"; Js.lit " "; Js.lit "is"]
               = concat [Js.lit "it is"]) by reflexivity.
  assert (H2 : Js.normalized
                 (concat [Js.lit "it"; Js.lit " "; Js.lit "is"]))
    by (split; reflexivity).
  assert (H3 : doc Scenario.continuation_start = Scenario.plain "Hi" ++ [])
    by reflexivity.
  assert (H4 : lastInsertedLengthRef Scenario.continuation_start = 0)
    by reflexivity.
  assert (H5 : anchor_after Scenario.continuation_start
               = length (Scenario.plain "Hi") + 1) by reflexivity.
  exact (proj2 (proj2 (proj2 (H H1 H2 H3 H4 H5)))).
Defined.

(** X7.  A stream that completes, delivered fragment by fragment and
    accepted: the text of the document is what stood before the anchor,
    the cleaned chunk texts of the model in order, and what stood behind
    the anchor.  The same holds for both adapter functions. *)
Theorem completed_stream_reaches_document
    (E : Type) (chunks : list Js.str) st pre post :
  doc st = pre ++ post ->
  lastInsertedLengthRef st = 0 ->
  anchor_after st = length pre + 1 ->
  let continuation :=
    Adapter.generateContinuationStream chunks (@Adapter.Completed E) in
  let modification :=
    Adapter.modifyTextStream chunks (@Adapter.Completed E) in
  let r := (deliver [] (Adapter.yielded continuation) ;; handleAccept) st in
  Adapter.yielded modification = Adapter.yielded continuation
  /\ Adapter.ending continuation = Adapter.Completed
  /\ outcome r = Returned tt
  /\ PM.text (doc (final r))
     = PM.text pre ++ concat (map Js.clean chunks) ++ PM.text post.
Proof.
  intros Hdoc Hlast Hanchor continuation modification r. subst r.
  set (fragments := Adapter.yielded continuation).
  assert (Hc : clean_already fragments)
    by (apply flat_map_emit_Forall, emit_chunk_clean_already).
  destruct (@deliver_run fragments [] st pre [] post
              (clean_already_length_kept Hc) Hdoc eq_refl Hlast)
    as (Do & Dd & _).
  { unfold anchor_after in Hanchor.
    destruct (aiTextStartPosRef st); [exact Hanchor |].
    split; [exact Hanchor | reflexivity]. }
  destruct (bind_returned (deliver [] fragments) (fun _ => handleAccept)
              st Do) as (Bo & Bf & _).
  cbv beta in Bo, Bf.
  destruct (handleAccept_spec (final (deliver [] fragments st)))
    as (Ao & _).
  repeat split.
  - rewrite Bo. exact Ao.
  - rewrite Bf, handleAccept_text, Dd.
    rewrite (clean_already_map Hc). cbn [app].
    rewrite !text_app, text_text_node.
    unfold fragments, continuation.
    cbn [Adapter.generateContinuationStream Adapter.yielded].
    rewrite flat_map_emit_concat. reflexivity.
Qed.

Lemma completed_stream_reaches_document_witness :
  PM.text
    (doc (final ((deliver []
                    (Adapter.yielded
                       (Adapter.generateContinuationStream
                          [Js.lit " So  far"; Js.lit " so good"]
                          (@Adapter.Completed unit))) ;;
                  handleAccept) Scenario.continuation_start)))
  = Js.lit "Hi So far so good".
Proof.
  pose proof (@completed_stream_reaches_document unit
                [Js.lit " So  far"; Js.lit " so good"]
                Scenario.continuation_start (Scenario.plain "Hi") []) as H.
  cbv zeta in H.
  assert (H1 : doc Scenario.continuation_start = Scenario.plain "Hi" ++ [])
    by reflexivity.
  assert (H2 : lastInsertedLengthRef Scenario.continuation_start = 0)
    by reflexivity.
  assert (H3 : anchor_after Scenario.continuation_start
               = length (Scenario.plain "Hi") + 1) by reflexivity.
  exact (proj2 (proj2 (proj2 (H H1 H2 H3)))).
Defined.

(** X8.  Cleaning a text a second time changes nothing, never makes a
    text longer, and never empties a text that is not empty. *)
Theorem clean_idempotent_and_not_longer (s : Js.str) :
  Js.clean (Js.clean s) = Js.clean s
  /\ length (Js.clean s) <= length s
  /\ (Js.clean s = [] <-> s = []).
Proof.
  split; [apply clean_fixed, clean_normalized |].
  split; [apply clean_length |].
  split.
  - intros H. destruct s as [| c s]; [reflexivity |].
    pose proof (@clean_truthy (c :: s) eq_refl) as Ht.
    rewrite H in Ht. discriminate.
  - intros ->. reflexivity.
Qed.

(** X9.  The adapter never yields an empty fragment: a fragment is one
    code unit, or two that form a surrogate pair (a unit from D800 to
    DBFF followed by one from DC00 to DFFF), in either stream, and
    there are at most as many fragments as the chunks have units. *)
Theorem adapter_fragments_small (E : Type) (chunks : list Js.str)
    (e : Adapter.Ending E) :
  let fragments :=
    Adapter.yielded (Adapter.generateContinuationStream chunks e) in
  Forall (fun f => 1 <= length f <= 2) fragments
  /\ length fragments <= length (concat chunks)
  /\ Forall (fun f =>
               (exists c, f = [c])
               \/ (exists c d, f = [c; d]
                              /\ (55296 <= c <= 56319)%N
                              /\ (56320 <= d <= 57343)%N)) fragments
  /\ Adapter.yielded (Adapter.modifyTextStream chunks e) = fragments.
Proof.
  cbn [Adapter.generateContinuationStream Adapter.modifyTextStream
       Adapter.yielded].
  assert (Hsmall : forall s, Forall (fun f => 1 <= length f <= 2)
                               (Js.code_points s)).
  { intros s.
    enough (H : Forall (fun f => 1 <= length f <= 2) (Js.code_points s)
                /\ forall c, Forall (fun f => 1 <= length f <= 2)
                               (Js.code_points (c :: s))) by apply H.
    induction s as [| d u [IHu IHc]].
    - split; [constructor |]. intros c. repeat constructor.
    - split; [apply IHc |]. intros c. rewrite code_points_cons2.
      destruct (Js.is_high_surrogate c && Js.is_low_surrogate d);
        constructor; try (cbn; lia); [apply IHu | apply IHc]. }
  assert (Hcount : forall s, length (Js.code_points s) <= length s).
  { intros s.
    enough (H : length (Js.code_points s) <= length s
                /\ forall c, length (Js.code_points (c :: s))
                             <= length (c :: s)) by apply H.
    induction s as [| d u [IHu IHc]].
    - split; [apply le_n |]. intros c. apply le_n.
    - split; [apply IHc |]. intros c. rewrite code_points_cons2.
      specialize (IHc d).
      destruct (Js.is_high_surrogate c && Js.is_low_surrogate d);
        cbn [length] in *; lia. }
  set (P := fun f : Js.str =>
              (exists c, f = [c])
              \/ (exists c d, f = [c; d]
                             /\ (55296 <= c <= 56319)%N
                             /\ (56320 <= d <= 57343)%N)).
  assert (Hpair : forall s, Forall P (Js.code_points s)).
  { intros s.
    enough (H : Forall P (Js.code_points s)
                /\ forall c, Forall P (Js.code_points (c :: s)))
      by apply H.
    induction s as [| d u [IHu IHc]].
    - split; [constructor |]. intros c. constructor; [| constructor].
      left. exists c. reflexivity.
    - split; [apply IHc |]. intros c. rewrite code_points_cons2.
      destruct (Js.is_high_surrogate c && Js.is_low_surrogate d) eqn:Hs.
      + constructor; [| apply IHu]. right. exists c, d.
        apply andb_true_iff in Hs. destruct Hs as [Hh Hl].
        unfold Js.is_high_surrogate in Hh.
        unfold Js.is_low_surrogate in Hl.
        apply andb_true_iff in Hh. apply andb_true_iff in Hl.
        destruct Hh as [Hh1 Hh2]. destruct Hl as [Hl1 Hl2].
        apply N.leb_le in Hh1, Hh2, Hl1, Hl2.
        repeat split; assumption.
      + constructor; [| apply IHc]. left. exists c. reflexivity. }
  split; [| split; [| split]].
  - apply flat_map_emit_Forall. intros c. unfold Adapter.emit_chunk.
    destruct (Js.truthy c); [apply Hsmall | constructor].
  - induction chunks as [| c cs IH]; [apply le_n |].
    cbn [flat_map concat]. rewrite !length_app.
    assert (Hc : length (Adapter.emit_chunk c) <= length c).
    { unfold Adapter.emit_chunk. destruct (Js.truthy c); [| cbn; lia].
      pose proof (Hcount (Js.clean c)). pose proof (clean_length c). lia. }
    lia.
  - apply flat_map_emit_Forall. intros c. unfold Adapter.emit_chunk.
    destruct (Js.truthy c); [apply Hpair | constructor].
  - reflexivity.
Qed.

(** X10.  Cleaning is done chunk by chunk: when a chunk ends in white
    space and the next one starts with white space, the fragments of the
    two put together are not whitespace normalized. *)
Theorem stream_not_normalized_across_chunks
    (E : Type) (a b : Js.str) (x y : Js.char) (e : Adapter.Ending E) :
  Js.is_space x = true ->
  Js.is_space y = true ->
  ~ Js.normalized
      (concat (Adapter.yielded
                 (Adapter.generateContinuationStream
                    [a ++ [x]; y :: b] e))).
Proof.
  intros Hx Hy [_ Hp].
  cbn [Adapter.generateContinuationStream Adapter.yielded] in Hp.
  rewrite flat_map_emit_concat in Hp. cbn [map concat] in Hp.
  rewrite app_nil_r in Hp.
  rewrite no_space_pair_meeting in Hp; [discriminate | |].
  - apply clean_ends_in_space, ends_in_space_snoc, Hx.
  - apply clean_starts_in_space. exact Hy.
Qed.

Lemma stream_not_normalized_across_chunks_witness :
  ~ Js.normalized
      (concat (Adapter.yielded
                 (Adapter.generateContinuationStream
                    [Js.lit "So" ++ [Js.space]; Js.space :: Js.lit "far"]
                    (@Adapter.Completed unit)))).
Proof.
  apply stream_not_normalized_across_chunks; reflexivity.
Defined.

End EditorProperties.

(* ================================================================== *)
(** ** Properties of the application shell *)

Section AppProperties.
Import Editor.
Import String.StringSyntax.
Local Open Scope string_scope.
Local Open Scope editor_scope.

(** X11.  The word count shown for a document is the number of its
    maximal runs of units that are not white space; it is 0 exactly for
    a document of white space only, which can still be continued when it
    is not empty. *)
Theorem wordCount_is_number_of_words (content : Js.str) :
  App.wordCount content = Text.count_words false content
  /\ (App.wordCount content = 0 <-> forallb Js.is_space content = true)
  /\ (App.canGenerate content = true <-> content <> []).
Proof.
  split; [apply wordCount_count_words |].
  split.
  - rewrite wordCount_count_words. apply count_words_zero.
  - unfold App.canGenerate. rewrite Nat.leb_le.
    destruct content as [| c l]; cbn [length]; split; intros H.
    + lia.
    + exfalso. apply H. reflexivity.
    + discriminate.
    + lia.
Qed.

(** X12.  The cleaning of the adapter and the editor does not change the
    number of words of a text. *)
Theorem wordCount_unchanged_by_clean (s : Js.str) :
  App.wordCount (Js.clean s) = App.wordCount s.
Proof.
  rewrite !wordCount_count_words. apply count_words_clean.
Qed.

(** X13.  A text of [n] units has at most [(n + 1) / 2] words; the
    reading time is at least one minute and is the least number of
    minutes, at 200 words a minute, that covers the words. *)
Theorem statistics_bounds (content : Js.str) :
  2 * App.wordCount content <= App.charCount content + 1
  /\ 1 <= App.readingTime content
  /\ App.wordCount content <= 200 * App.readingTime content
  /\ 200 * (App.readingTime content - 1)
     < Nat.max 1 (App.wordCount content).
Proof.
  unfold App.readingTime, App.charCount.
  rewrite wordCount_count_words.
  destruct (count_words_length content) as [_ H].
  set (w := Text.count_words false content) in *.
  pose proof (Nat.div_mod_eq (w + 199) 200) as Hd.
  pose proof (Nat.mod_upper_bound (w + 199) 200) as Hm.
  repeat split; try lia.
Qed.

(** X14.  A selection action that runs sends the machine exactly one
    event: the request to generate with the chosen action on the text
    the handler has just deleted, never a plain continuation. *)
Theorem selection_action_sends_action_event action st content tone :
  toolbar_in_sync st ->
  selection_in_paragraph st ->
  selectedText st <> [] ->
  let deleted :=
    PM.textBetween (fst (selection st)) (snd (selection st)) (doc st) in
  flat_map (App.sent content tone)
    (events (handleSelectionAiAction action st))
  = [App.GENERATE_WITH_ACTION deleted action].
Proof.
  intros Hsync Hsel Hne deleted. subst deleted.
  destruct (@selection_capture_precedes_deletion_facts action st
              Hsync Hsel Hne) as [Hd He].
  cbv zeta in Hd. rewrite He.
  cbn [flat_map App.sent app App.handleGenerate].
  destruct (PM.textBetween (fst (selection st)) (snd (selection st))
              (doc st)) as [| c t].
  - exfalso. apply Hd. reflexivity.
  - reflexivity.
Qed.

Lemma selection_action_sends_action_event_witness :
  flat_map (App.sent (Js.lit "hello world") (Js.lit "formal"))
    (events (handleSelectionAiAction expand Scenario.selected_start))
  = [App.GENERATE_WITH_ACTION (Js.lit "hello world") expand].
Proof.
  pose proof (@selection_action_sends_action_event expand
                Scenario.selected_start (Js.lit "hello world")
                (Js.lit "formal")) as H.
  cbv zeta in H.
  assert (H1 : toolbar_in_sync Scenario.selected_start) by reflexivity.
  assert (H2 : selection_in_paragraph Scenario.selected_start)
    by (unfold selection_in_paragraph; simpl; lia).
  assert (H3 : selectedText Scenario.selected_start <> [])
    by (simpl; discriminate).
  exact (H H1 H2 H3).
Defined.

(** X15.  Accept, reject and modify hand their intent to the machine
    whenever they return, whether the editor holds an anchor or not:
    exactly one event, of the kind of the handler. *)
Theorem decisions_always_tell_machine st action content tone :
  (let r := handleAccept st in
   outcome r = Returned tt
   /\ flat_map (App.sent content tone) (events r) = [App.ACCEPT])
  /\ (let r := handleReject st in
      outcome r = Returned tt ->
      flat_map (App.sent content tone) (events r) = [App.REJECT])
  /\ (let r := handleModify action st in
      outcome r = Returned tt ->
      flat_map (App.sent content tone) (events r) = [App.MODIFY action]).
Proof.
  destruct st as [d [sf st'] last start rng repl orig seltxt tb stb].
  repeat apply conj.
  - apply handleAccept_spec.
  - unfold handleAccept. destruct start as [q |]; run_handler;
      [destruct (PM.has_em _ _ _ _) |]; reflexivity.
  - unfold handleReject. destruct start as [q |]; run_handler;
      repeat (match goal with
              | |- context [if ?b then _ else _] => destruct b
              end; run_handler);
      intros H; try discriminate H; reflexivity.
  - unfold handleModify. destruct start as [q |]; run_handler;
      repeat (match goal with
              | |- context [if ?b then _ else _] => destruct b
              end; run_handler);
      intros H; try discriminate H; reflexivity.
Qed.

Lemma decisions_always_tell_machine_witness :
  flat_map (App.sent (Js.lit "Hi") (Js.lit "formal"))
    (events (handleModify shorten Scenario.continuation_start))
  = [App.MODIFY shorten].
Proof.
  pose proof (@decisions_always_tell_machine Scenario.continuation_start
                shorten (Js.lit "Hi") (Js.lit "formal")) as H.
  cbv zeta in H. destruct H as (_ & _ & H).
  apply H. reflexivity.
Defined.



(** X17.  The sidebar flag survives a reload: what [toggleSidebar]
    stores is read back by [loadSidebarState] as the new state, unless
    the storage cannot be read, when the sidebar comes up expanded. *)
Theorem sidebar_state_round_trip (prev : bool) (p : App.Prefs) :
  fst (App.toggleSidebar prev p) = negb prev
  /\ App.loadSidebarState (snd (App.toggleSidebar prev p))
     = (if App.getItem_throws p then false else negb prev)
  /\ App.loadTone (snd (App.toggleSidebar prev p)) = App.loadTone p.
Proof.
  destruct p as [sb tn th]. destruct prev, th; repeat split.
Qed.

Lemma find_absent (k : Js.str) (l : list (Js.str * Js.str)) :
  ~ In k (map fst l) ->
  find (fun o => Text.eqb (fst o) k) l = None.
Proof.
  induction l as [| o l IH]; intros H; [reflexivity |].
  cbn [find map In] in *.
  replace (Text.eqb (fst o) k) with false.
  - apply IH. tauto.
  - symmetry. apply eqb_neq. tauto.
Qed.

(** X18.  A tone of the menu survives a reload and is shown under its
    own label: what [handleToneChange] stores is read back by
    [loadTone], unless the storage cannot be read, when the tone is
    "professional". *)
Theorem tone_round_trip (tone label : Js.str) (p : App.Prefs) :
  In (tone, label) App.TONE_OPTIONS ->
  App.loadTone (snd (App.handleToneChange tone p))
  = (if App.getItem_throws p then Js.lit "professional" else tone)
  /\ App.selectedLabel tone = label
  /\ App.loadSidebarState (snd (App.handleToneChange tone p))
     = App.loadSidebarState p.
Proof.
  destruct p as [sb tn th]. intros H.
  cbn [App.TONE_OPTIONS In] in H.
  repeat (destruct H as [H | H]; [injection H as <- <- |]);
    try contradiction; destruct th; repeat split.
Qed.

Lemma tone_round_trip_witness :
  App.loadTone
    (snd (App.handleToneChange (Js.lit "academic")
            (App.mkPrefs None None false)))
  = Js.lit "academic".
Proof.
  pose proof (@tone_round_trip (Js.lit "academic") (Js.lit "Academic")
                (App.mkPrefs None None false)) as H.
  apply H. cbn. tauto.
Defined.

(** X19.  [loadTone] does not check what it reads: a stored text that is
    not empty and is no tone of the menu is returned as the tone, and
    the control bar shows it as "Professional". *)
Theorem stored_tone_not_validated (stored : Js.str) (p : App.Prefs) :
  App.getItem_throws p = false ->
  App.chronicle_tone p = Some stored ->
  stored <> [] ->
  ~ In stored (map fst App.TONE_OPTIONS) ->
  App.loadTone p = stored
  /\ App.selectedLabel (App.loadTone p) = Js.lit "Professional".
Proof.
  intros Hth Hst Hne Hnot.
  assert (Hl : App.loadTone p = stored).
  { unfold App.loadTone. rewrite Hth, Hst.
    destruct stored; [congruence | reflexivity]. }
  split; [exact Hl |].
  rewrite Hl. unfold App.selectedLabel.
  rewrite (find_absent _ _ Hnot). reflexivity.
Qed.

Lemma stored_tone_not_validated_witness :
  App.loadTone (App.mkPrefs None (Some (Js.lit "angry")) false)
  = Js.lit "angry".
Proof.
  pose proof (@stored_tone_not_validated (Js.lit "angry")
                (App.mkPrefs None (Some (Js.lit "angry")) false)) as H.
  apply H; try reflexivity; [discriminate |].
  cbn. intros Hin.
  repeat (destruct Hin as [Hin | Hin]; [discriminate Hin |]).
  exact Hin.
Defined.

End AppProperties.

(* ================================================================== *)
(** ** Properties of the document store *)

Section DocumentProperties.
Import Documents.

Lemma find_is_id_in i docs :
  In i (map id docs) -> find (is_id (Some i)) docs <> None.
Proof.
  induction docs as [| d docs IH]; intros H; [contradiction |].
  cbn [find is_id]. destruct (Text.eqb (id d) i) eqn:He; [discriminate |].
  apply IH. destruct H as [H | H]; [| exact H].
  apply eqb_neq in He. congruence.
Qed.

Lemma find_is_id_some i docs d :
  find (is_id (Some i)) docs = Some d -> In d docs /\ id d = i.
Proof.
  intros H. apply find_some in H. destruct H as [Hin He].
  split; [exact Hin |]. apply eqb_eq. exact He.
Qed.

Lemma ids_filter i docs :
  map id (filter (fun d => negb (Text.eqb (id d) i)) docs)
  = filter (fun j => negb (Text.eqb j i)) (map id docs).
Proof.
  induction docs as [| d docs IH]; [reflexivity |].
  cbn [filter map]. destruct (Text.eqb (id d) i); cbn [negb map];
    rewrite IH; reflexivity.
Qed.

Lemma filter_keeps_one i (l : list Js.str) :
  NoDup l -> 1 < length l ->
  filter (fun j => negb (Text.eqb j i)) l <> [].
Proof.
  destruct l as [| a [| b l]]; cbn [length]; try lia.
  intros Hnd _. cbn [filter].
  destruct (Text.eqb a i) eqn:Ha; [| discriminate].
  destruct (Text.eqb b i) eqn:Hb; [| discriminate].
  apply eqb_eq in Ha, Hb. subst.
  inversion Hnd as [| ? ? Hnot _]. exfalso. apply Hnot. left. reflexivity.
Qed.

Lemma filter_removes_one i (l : list Js.str) :
  NoDup l -> In i l ->
  S (length (filter (fun j => negb (Text.eqb j i)) l)) = length l.
Proof.
  induction 1 as [| a l Hnot Hnd IH]; intros Hin; [contradiction |].
  cbn [filter length]. destruct (Text.eqb a i) eqn:Ha.
  - apply eqb_eq in Ha. subst a. cbn [negb]. f_equal.
    assert (Hall : forall l', ~ In i l' ->
              filter (fun j => negb (Text.eqb j i)) l' = l').
    { induction l' as [| b l' IHl]; intros Hb; [reflexivity |].
      cbn [filter]. replace (Text.eqb b i) with false.
      - cbn [negb]. f_equal. apply IHl. intros H. apply Hb. right. exact H.
      - symmetry. apply eqb_neq. intros ->. apply Hb. left. reflexivity. }
    rewrite Hall by exact Hnot. reflexivity.
  - cbn [negb length]. f_equal. apply IH.
    destruct Hin as [-> | Hin]; [| exact Hin].
    rewrite eqb_refl in Ha. discriminate.
Qed.

Lemma ids_update i t c now s :
  ids (updateDocument i t c now s) = ids s.
Proof.
  unfold ids, updateDocument. cbn [documents]. rewrite map_map.
  apply map_ext. intros d. destruct (Text.eqb (id d) i); reflexivity.
Qed.

(** One action of the sidebar keeps the store well formed. *)
Lemma act_well_formed a s :
  well_formed s -> offered a s -> well_formed (act a s).
Proof.
  intros (Hnd & Hne & Hdocs & act0 & Hact & Hin) Hoff.
  destruct a as [newId now | docId | docId | docId t c now];
    cbn [act offered] in *.
  - destruct Hoff as [Hfresh Hid].
    unfold well_formed, ids. cbn [createDocument snd documents activeDocId
                                   map id].
    repeat split.
    + constructor; assumption.
    + intros [H | H]; [congruence | exact (Hne H)].
    + discriminate.
    + exists newId. split; [reflexivity | left; reflexivity].
  - unfold well_formed, ids in *. cbn [setActiveDocument documents activeDocId].
    repeat split; try assumption.
    exists docId. split; [reflexivity | exact Hoff].
  - destruct (1 <? length (documents s)) eqn:Hlen;
      [| repeat split; try assumption; exists act0; split; assumption].
    apply Nat.ltb_lt in Hlen.
    assert (Hids : ids (deleteDocument docId s)
                   = filter (fun j => negb (Text.eqb j docId)) (ids s))
      by apply ids_filter.
    assert (Hrest : ids (deleteDocument docId s) <> []).
    { rewrite Hids. apply filter_keeps_one; [exact Hnd |].
      unfold ids. rewrite length_map. exact Hlen. }
    unfold well_formed. rewrite Hids. repeat split.
    + apply NoDup_filter, Hnd.
    + intros H. apply filter_In in H. apply Hne, H.
    + intros H. apply Hrest. unfold ids. rewrite H. reflexivity.
    + cbn [deleteDocument activeDocId]. rewrite Hact.
      destruct (Text.eqb act0 docId) eqn:He.
      * unfold ids in Hrest, Hids.
        cbn [deleteDocument documents] in Hrest, Hids.
        destruct (filter (fun d => negb (Text.eqb (id d) docId))
                    (documents s)) as [| nextDoc rest] eqn:Hf;
          [exfalso; apply Hrest; reflexivity |].
        assert (Hn : In (id nextDoc)
                       (filter (fun j => negb (Text.eqb j docId)) (ids s))).
        { unfold ids. rewrite <- Hids. left. reflexivity. }
        assert (Ht : Js.truthy (id nextDoc) = true).
        { destruct (id nextDoc) eqn:Hi; [| reflexivity].
          exfalso. apply filter_In in Hn. apply Hne, Hn. }
        rewrite Ht. exists (id nextDoc). split; [reflexivity | exact Hn].
      * exists act0. split; [reflexivity |].
        apply filter_In. split; [exact Hin |]. rewrite He. reflexivity.
  - unfold well_formed. rewrite ids_update. repeat split; try assumption.
    + cbn [updateDocument documents]. intros H. apply Hdocs.
      destruct (documents s); [reflexivity | discriminate H].
    + exists act0. split; assumption.
Qed.

(** X20.  Whatever the sidebar is used for (new document, select or
    delete a listed document, update), the store keeps distinct,
    non-empty ids, at least one document, and an active id that is the
    id of a document: there is always an active document. *)
Theorem store_stays_well_formed (l : list Action) (s : Store) :
  well_formed s ->
  offered_all l s ->
  well_formed (run l s) /\ activeDocument (run l s) <> None.
Proof.
  intros Hwf Hoff.
  assert (H : well_formed (run l s)).
  { revert s Hwf Hoff. induction l as [| a l IH]; intros s Hwf Hoff.
    - exact Hwf.
    - cbn [run fold_left]. destruct Hoff as [Ha Hl].
      apply IH; [apply act_well_formed; assumption | exact Hl]. }
  split; [exact H |].
  destruct H as (_ & _ & _ & a & Ha & Hin).
  unfold activeDocument. rewrite Ha. apply find_is_id_in, Hin.
Qed.

Lemma store_stays_well_formed_witness :
  activeDocument
    (run [NewDocument [2%N] 5%Z; DeleteDocument [2%N];
          UpdateDocument [1%N] None (Some [7%N]) 9%Z]
       (mkStore [mkDocument [1%N] [] [] 0%Z 0%Z] (Some [1%N])))
  <> None.
Proof.
  pose proof (@store_stays_well_formed
                [NewDocument [2%N] 5%Z; DeleteDocument [2%N];
                 UpdateDocument [1%N] None (Some [7%N]) 9%Z]
                (mkStore [mkDocument [1%N] [] [] 0%Z 0%Z] (Some [1%N])))
    as H.
  apply H.
  - unfold well_formed, ids. cbn [documents activeDocId map id].
    repeat split.
    + constructor; [intros [] | constructor].
    + intros [H0 | []]. discriminate H0.
    + discriminate.
    + exists [1%N]. split; [reflexivity | left; reflexivity].
  - cbn. repeat split; try discriminate.
    + intros [H0 | []]. discriminate H0.
    + left. reflexivity.
Defined.

(** X21.  The effect that runs after mount leaves a well formed store,
    with one new document when there was none, and changes nothing in
    a store that is well formed already. *)
Theorem initialize_gives_active_document newId now (s : Store) :
  NoDup (ids s) ->
  ~ In [] (ids s) ->
  newId <> [] ->
  well_formed (initialize newId now s)
  /\ (documents s <> [] -> documents (initialize newId now s) = documents s)
  /\ (well_formed s -> initialize newId now s = s).
Proof.
  intros Hnd Hne Hid. destruct s as [docs active].
  unfold initialize, ids in *. cbn [documents activeDocId] in *.
  destruct docs as [| first rest].
  - repeat split; try congruence.
    + cbn. constructor; [intros [] | constructor].
    + cbn. intros [H | []]. congruence.
    + cbn. discriminate.
    + exists newId. cbn. split; [reflexivity | left; reflexivity].
    + intros (_ & _ & H & _). cbn in H. congruence.
  - assert (Hvalid : forall a, active = Some a ->
              find (is_id (Some a)) (first :: rest) <> None ->
              In a (map id (first :: rest))).
    { intros a _ Hf.
      destruct (find (is_id (Some a)) (first :: rest)) as [d |] eqn:Hd;
        [| congruence].
      apply find_is_id_some in Hd. destruct Hd as [Hin <-].
      apply in_map, Hin. }
    destruct active as [a |].
    + destruct (Js.truthy a) eqn:Ht; cbn [negb orb].
      * destruct (find (is_id (Some a)) (first :: rest)) as [d |] eqn:Hd.
        -- repeat split; try assumption; try discriminate; try reflexivity.
           exists a. split; [reflexivity |].
           apply (Hvalid a eq_refl). rewrite Hd. discriminate.
        -- repeat split; try assumption; try discriminate; try reflexivity.
           ++ exists (id first). split; [reflexivity | left; reflexivity].
           ++ intros (_ & _ & _ & a' & Ha' & Hin).
              unfold ids in Hin. cbn [activeDocId documents] in Ha', Hin.
              injection Ha' as <-.
              exfalso. apply (@find_is_id_in _ _ Hin). exact Hd.
      * repeat split; try assumption; try discriminate; try reflexivity.
        -- exists (id first). split; [reflexivity | left; reflexivity].
        -- intros (_ & Hne' & _ & a' & Ha' & Hin).
           unfold ids in Hin, Hne'.
           cbn [activeDocId documents] in Ha', Hin, Hne'.
           injection Ha' as <-. destruct a; [| discriminate Ht].
           exfalso. apply Hne', Hin.
    + cbn [negb orb]. repeat split; try assumption; try discriminate;
        try reflexivity.
      * exists (id first). split; [reflexivity | left; reflexivity].
      * intros (_ & _ & _ & a' & Ha' & _). discriminate Ha'.
Qed.

Lemma initialize_gives_active_document_witness :
  well_formed (initialize [1%N] 0%Z (mkStore [] None)).
Proof.
  apply (@initialize_gives_active_document [1%N] 0%Z (mkStore [] None)).
  - constructor.
  - intros [].
  - discriminate.
Defined.

Lemma find_map_update i (f : Document -> Document) j docs :
  (forall d, id (f d) = id d) ->
  find (is_id (Some j))
    (map (fun d => if Text.eqb (id d) i then f d else d) docs)
  = if Text.eqb j i
    then option_map f (find (is_id (Some j)) docs)
    else find (is_id (Some j)) docs.
Proof.
  intros Hf. induction docs as [| d docs IH].
  - destruct (Text.eqb j i); reflexivity.
  - cbn [map find is_id].
    destruct (Text.eqb (id d) i) eqn:Hdi.
    + rewrite Hf. destruct (Text.eqb (id d) j) eqn:Hdj.
      * apply eqb_eq in Hdi, Hdj. subst. rewrite eqb_refl. reflexivity.
      * exact IH.
    + destruct (Text.eqb (id d) j) eqn:Hdj.
      * apply eqb_eq in Hdj. subst j. rewrite Hdi. reflexivity.
      * exact IH.
Qed.

(** X22.  [updateDocument] touches the documents of the given id only:
    the ids, their order and the active id stay; looking up another id
    gives what it gave before; looking up the id gives the document with
    the named fields replaced, the other fields and [createdAt] kept and
    [updatedAt] set; for an id that is not in use the store does not
    change. *)
Theorem updateDocument_touches_that_document
    i newTitle newContent now (s : Store) :
  let s' := updateDocument i newTitle newContent now s in
  let updated d :=
    mkDocument (id d)
      (match newTitle with Some t => t | None => title d end)
      (match newContent with Some c => c | None => content d end)
      (createdAt d) now in
  ids s' = ids s
  /\ activeDocId s' = activeDocId s
  /\ getDocument i s' = option_map updated (getDocument i s)
  /\ (forall j, j <> i -> getDocument j s' = getDocument j s)
  /\ (~ In i (ids s) -> s' = s).
Proof.
  cbv zeta. split; [apply ids_update |]. split; [reflexivity |].
  unfold getDocument, updateDocument. cbn [documents].
  repeat split.
  - rewrite find_map_update by reflexivity. rewrite eqb_refl. reflexivity.
  - intros j Hj. rewrite find_map_update by reflexivity.
    replace (Text.eqb j i) with false; [reflexivity |].
    symmetry. apply eqb_neq, Hj.
  - intros Hnot. destruct s as [docs active]. cbn [documents activeDocId].
    f_equal. unfold ids in Hnot. cbn [documents] in Hnot.
    induction docs as [| d docs IH]; [reflexivity |].
    cbn [map]. replace (Text.eqb (id d) i) with false.
    + f_equal. apply IH. intros H. apply Hnot. right. exact H.
    + symmetry. apply eqb_neq. intros H. apply Hnot. left. exact H.
Qed.

Lemma updateDocument_touches_that_document_witness :
  let s := mkStore [mkDocument [1%N] [] [] 0%Z 0%Z;
                    mkDocument [2%N] [] [] 0%Z 0%Z] (Some [1%N]) in
  getDocument [2%N] (updateDocument [1%N] None (Some [7%N]) 9%Z s)
  = getDocument [2%N] s.
Proof.
  pose proof (@updateDocument_touches_that_document [1%N] None
                (Some [7%N]) 9%Z
                (mkStore [mkDocument [1%N] [] [] 0%Z 0%Z;
                          mkDocument [2%N] [] [] 0%Z 0%Z] (Some [1%N])))
    as H.
  cbv zeta in *. destruct H as (_ & _ & _ & H & _).
  apply H. discriminate.
Defined.

Lemma find_filter_delete i j docs :
  find (is_id (Some j)) (filter (fun d => negb (Text.eqb (id d) i)) docs)
  = if Text.eqb j i then None else find (is_id (Some j)) docs.
Proof.
  induction docs as [| d docs IH].
  - destruct (Text.eqb j i); reflexivity.
  - cbn [filter find is_id].
    destruct (Text.eqb (id d) i) eqn:Hdi; cbn [negb find is_id].
    + rewrite IH. destruct (Text.eqb j i) eqn:Hji; [reflexivity |].
      replace (Text.eqb (id d) j) with false; [reflexivity |].
      symmetry. apply eqb_neq. apply eqb_eq in Hdi. apply eqb_neq in Hji.
      congruence.
    + destruct (Text.eqb (id d) j) eqn:Hdj.
      * apply eqb_eq in Hdj. subst j. rewrite Hdi. reflexivity.
      * exact IH.
Qed.

(** X23.  [deleteDocument] removes the documents of the given id only:
    the id is not found any more, another id is found as before, and
    the active id stays unless it was the deleted one, when it becomes
    the id of the first document left, or none. *)
Theorem deleteDocument_removes_that_document i (s : Store) :
  let s' := deleteDocument i s in
  getDocument i s' = None
  /\ (forall j, j <> i -> getDocument j s' = getDocument j s)
  /\ (activeDocId s <> Some i -> activeDocId s' = activeDocId s)
  /\ (activeDocId s = Some i ->
      activeDocId s'
      = match documents s' with
        | nextDoc :: _ =>
            if Js.truthy (id nextDoc) then Some (id nextDoc) else None
        | [] => None
        end).
Proof.
  cbv zeta. unfold getDocument, deleteDocument. cbn [documents activeDocId].
  repeat split.
  - rewrite find_filter_delete, eqb_refl. reflexivity.
  - intros j Hj. rewrite find_filter_delete.
    replace (Text.eqb j i) with false; [reflexivity |].
    symmetry. apply eqb_neq, Hj.
  - intros Hact. destruct (activeDocId s) as [a |]; [| reflexivity].
    replace (Text.eqb a i) with false; [reflexivity |].
    symmetry. apply eqb_neq. congruence.
  - intros ->. rewrite eqb_refl. reflexivity.
Qed.

Lemma deleteDocument_removes_that_document_witness :
  let s := mkStore [mkDocument [1%N] [] [] 0%Z 0%Z;
                    mkDocument [2%N] [] [] 0%Z 0%Z] (Some [1%N]) in
  activeDocId (deleteDocument [1%N] s) = Some [2%N].
Proof.
  pose proof (@deleteDocument_removes_that_document [1%N]
                (mkStore [mkDocument [1%N] [] [] 0%Z 0%Z;
                          mkDocument [2%N] [] [] 0%Z 0%Z] (Some [1%N])))
    as H.
  cbv zeta in *. destruct H as (_ & _ & _ & H).
  rewrite H; reflexivity.
Defined.

(** X24.  A new document is put in front, is found under its id and is
    the active document, empty and called "Untitled"; the documents
    under other ids are found as before. *)
Theorem createDocument_is_found_and_active newId now (s : Store) :
  let newDoc := fst (createDocument newId now s) in
  let s' := snd (createDocument newId now s) in
  documents s' = newDoc :: documents s
  /\ getDocument newId s' = Some newDoc
  /\ activeDocument s' = Some newDoc
  /\ content newDoc = []
  /\ createdAt newDoc = now
  /\ (forall j, j <> newId -> getDocument j s' = getDocument j s).
Proof.
  cbv zeta. unfold getDocument, activeDocument, createDocument.
  cbn [fst snd documents activeDocId find is_id id].
  rewrite eqb_refl. repeat split.
  intros j Hj. replace (Text.eqb newId j) with false; [reflexivity |].
  symmetry. apply eqb_neq. congruence.
Qed.

Lemma createDocument_is_found_and_active_witness :
  let s := mkStore [mkDocument [1%N] [] [] 0%Z 0%Z] (Some [1%N]) in
  getDocument [1%N] (snd (createDocument [2%N] 5%Z s)) = getDocument [1%N] s.
Proof.
  pose proof (@createDocument_is_found_and_active [2%N] 5%Z
                (mkStore [mkDocument [1%N] [] [] 0%Z 0%Z] (Some [1%N])))
    as H.
  cbv zeta in *. destruct H as (_ & _ & _ & _ & _ & H).
  apply H. discriminate.
Defined.

(** X25.  The sidebar deletes exactly one document when more than one is
    listed, and none when the listed document is the only one. *)
Theorem sidebar_keeps_last_document docId (s : Store) :
  NoDup (ids s) ->
  In docId (ids s) ->
  length (documents (act (DeleteDocument docId) s))
  = Nat.max 1 (length (documents s) - 1).
Proof.
  intros Hnd Hin. cbn [act].
  destruct (1 <? length (documents s)) eqn:Hlen.
  - apply Nat.ltb_lt in Hlen.
    pose proof (@filter_removes_one docId _ Hnd Hin) as H.
    unfold ids in H. rewrite <- ids_filter in H.
    rewrite !length_map in H.
    cbn [deleteDocument documents]. lia.
  - apply Nat.ltb_ge in Hlen.
    assert (0 < length (documents s)).
    { unfold ids in Hin. destruct (documents s); [contradiction |].
      cbn; lia. }
    lia.
Qed.

Lemma sidebar_keeps_last_document_witness :
  length (documents
            (act (DeleteDocument [1%N])
               (mkStore [mkDocument [1%N] [] [] 0%Z 0%Z] (Some [1%N]))))
  = 1.
Proof.
  apply (@sidebar_keeps_last_document [1%N]
           (mkStore [mkDocument [1%N] [] [] 0%Z 0%Z] (Some [1%N]))).
  - constructor; [intros [] | constructor].
  - left. reflexivity.
Defined.

End DocumentProperties.

(* ================================================================== *)
(** ** Properties of the sidebar's dates and of the accounts *)

Section DateProperties.
Import Sidebar.
Local Open Scope Z_scope.

(** X26.  For times that the code's double arithmetic handles exactly
    ([exact_time]), the label of a document's date goes by whole
    periods of 24 hours since the timestamp, not by calendar days:
    "Today" for less than one period, "Yesterday" for one, the locale
    date from seven on; a timestamp that lies ahead of the clock gets a
    negative number of days.  A timestamp outside the range of [Date]
    gets the locale string whatever the clock says. *)
Theorem formatDate_by_elapsed_days (now timestamp : Z) :
  exact_time now -> exact_time timestamp ->
  let elapsed := now - timestamp in
  (formatDate now timestamp = Today <-> 0 <= elapsed < msPerDay)
  /\ (formatDate now timestamp = Yesterday
      <-> msPerDay <= elapsed < 2 * msPerDay)
  /\ (formatDate now timestamp = LocaleDate <-> 7 * msPerDay <= elapsed)
  /\ (formatDate now timestamp = DaysAgo (elapsed / msPerDay)
      <-> elapsed < 0 \/ 2 * msPerDay <= elapsed < 7 * msPerDay)
  /\ (elapsed < 0 -> elapsed / msPerDay < 0)
  /\ (forall late, maxTime < late -> formatDate now late = LocaleDate)
  /\ (forall early, early < - maxTime -> formatDate now early = LocaleDate).
Proof.
  intros Hnow Hts. cbv zeta.
  assert (Hmax : maxTime = 8640000000000000) by reflexivity.
  assert (Hvalid : valid_time timestamp = true).
  { unfold valid_time, exact_time in *. rewrite Hmax.
    apply andb_true_iff. split; apply Z.leb_le; lia. }
  assert (Hout : forall t, maxTime < t \/ t < - maxTime ->
                           formatDate now t = LocaleDate).
  { intros t Ht. unfold formatDate.
    assert (Hv : valid_time t = false).
    { unfold valid_time. apply andb_false_iff.
      destruct Ht as [Ht | Ht]; [right | left]; apply Z.leb_gt; lia. }
    rewrite Hv. reflexivity. }
  unfold formatDate. rewrite Hvalid. clear Hmax Hvalid Hnow Hts.
  set (elapsed := now - timestamp).
  pose proof (Z.div_mod elapsed msPerDay) as Hdm.
  pose proof (Z.mod_pos_bound elapsed msPerDay) as Hmod.
  set (q := elapsed / msPerDay) in *.
  set (m := elapsed mod msPerDay) in *.
  assert (Hms : msPerDay = 86400000) by reflexivity.
  rewrite Hms in *. clear Hms.
  specialize (Hdm ltac:(lia)). specialize (Hmod ltac:(lia)).
  assert (Hlate : forall late, maxTime < late ->
                               formatDate now late = LocaleDate)
    by (intros; apply Hout; left; assumption).
  assert (Hearly : forall early, early < - maxTime ->
                                 formatDate now early = LocaleDate)
    by (intros; apply Hout; right; assumption).
  clear Hout.
  destruct (Z.eqb_spec q 0) as [H0 | H0];
    [| destruct (Z.eqb_spec q 1) as [H1 | H1];
       [| destruct (Z.ltb_spec q 7) as [H7 | H7]]];
    (split; [| split; [| split; [| split; [| split; [| split]]]]]);
    try exact Hlate; try exact Hearly; clear Hlate Hearly;
    try split; intros; try discriminate; try lia;
    try (exfalso; lia); try reflexivity;
    try (match goal with H : DaysAgo _ = DaysAgo _ |- _ =>
           injection H as ? end; lia).
Qed.

Lemma formatDate_by_elapsed_days_witness :
  formatDate 86399999 0 = Today /\ (0 - 1) / msPerDay < 0.
Proof.
  assert (E0 : exact_time 0) by (unfold exact_time; lia).
  assert (E1 : exact_time 1) by (unfold exact_time; lia).
  assert (E2 : exact_time 86399999) by (unfold exact_time; lia).
  pose proof (@formatDate_by_elapsed_days 86399999 0 E2 E0) as H.
  pose proof (@formatDate_by_elapsed_days 0 1 E0 E1) as H'.
  cbv zeta in *. split.
  - apply H. unfold msPerDay. lia.
  - apply H'. lia.
Defined.

End DateProperties.

Section AccountProperties.
Import Auth.
Import String.StringSyntax.
Local Open Scope string_scope.

Lemma find_app_none {A} (f : A -> bool) l1 l2 :
  find f l1 = None -> find f (l1 ++ l2) = find f l2.
Proof.
  induction l1 as [| a l1 IH]; [reflexivity |].
  cbn [find app]. destruct (f a); [discriminate | exact IH].
Qed.

Lemma find_weaker_none {A} (f g : A -> bool) l :
  (forall a, g a = true -> f a = true) ->
  find f l = None -> find g l = None.
Proof.
  intros Hfg. induction l as [| a l IH]; [reflexivity |].
  cbn [find]. destruct (f a) eqn:Hf; [discriminate |].
  destruct (g a) eqn:Hg; [| exact IH].
  rewrite (Hfg a Hg) in Hf. discriminate.
Qed.

Lemma find_email_none e users :
  find (fun u => Text.eqb (email u) e) users = None ->
  ~ In e (emails users).
Proof.
  induction users as [| u users IH]; intros H; [intros [] |].
  cbn [find] in H. destruct (Text.eqb (email u) e) eqn:He; [discriminate |].
  intros [Hin | Hin]; [| exact (IH H Hin)].
  apply eqb_neq in He. exact (He Hin).
Qed.

(** What a sign-up that succeeds has checked and stored. *)
Lemma signup_succeeded f s account :
  isLogin f = false ->
  fst (handleSubmit f s) = LoggedIn account ->
  Js.truthy (form_email f) = true
  /\ Js.truthy (form_password f) = true
  /\ find (fun u => Text.eqb (email u) (form_email f)) (stored_users s)
     = None
  /\ account = mkAccount (form_email f) (form_name f)
  /\ snd (handleSubmit f s)
     = mkStore
         (Some (stored_users s
                ++ [mkUser (form_email f) (form_password f) (form_name f)]))
         (Some account).
Proof.
  intros Hmode. unfold handleSubmit. rewrite Hmode.
  destruct (Js.truthy (form_email f)); [| discriminate].
  destruct (Js.truthy (form_password f)); [| discriminate].
  cbn [negb orb andb].
  destruct (Js.truthy (form_name f)); [| discriminate].
  cbn [negb].
  destruct (find (fun u => Text.eqb (email u) (form_email f))
              (stored_users s)); [discriminate |].
  cbn [fst snd]. intros H. injection H as <-. repeat split.
Qed.

(** X27.  Who has signed up can log in: after a sign-up that succeeded,
    and a logout, a login with the same email and password succeeds and
    gives the account of the sign-up. *)
Theorem signup_then_login f s account anyName :
  isLogin f = false ->
  fst (handleSubmit f s) = LoggedIn account ->
  let s' := handleLogout (snd (handleSubmit f s)) in
  let login := mkForm true (form_email f) (form_password f) anyName in
  getStoredUser s' = None
  /\ fst (handleSubmit login s') = LoggedIn account
  /\ getStoredUser (snd (handleSubmit login s')) = Some account.
Proof.
  intros Hmode Hok.
  destruct (signup_succeeded f s Hmode Hok) as (He & Hp & Hf & Ha & Hs).
  cbv zeta. rewrite Hs. unfold handleLogout, getStoredUser, handleSubmit.
  cbn [chronicle_users chronicle_current_user stored_users isLogin
       form_email form_password].
  rewrite He, Hp. cbn [negb orb andb].
  rewrite find_app_none.
  2:{ apply (find_weaker_none _ _ _ (fun a H => proj1 (andb_prop _ _ H)) Hf). }
  cbn [find email password name]. rewrite !eqb_refl. cbn [andb fst snd].
  subst account. repeat split.
Qed.

Lemma signup_then_login_witness :
  let f := mkForm false [97%N] [98%N] [99%N] in
  let s := mkStore None None in
  fst (handleSubmit (mkForm true [97%N] [98%N] [])
         (handleLogout (snd (handleSubmit f s))))
  = LoggedIn (mkAccount [97%N] [99%N]).
Proof.
  pose proof (@signup_then_login (mkForm false [97%N] [98%N] [99%N])
                (mkStore None None) (mkAccount [97%N] [99%N]) []) as H.
  cbv zeta in *. apply H; reflexivity.
Defined.

(** X28.  A submit never removes or changes a stored user and adds at
    most one; stored emails that are distinct stay distinct. *)
Theorem submit_keeps_users_distinct f s :
  (exists added, stored_users (snd (handleSubmit f s))
                 = stored_users s ++ added
                 /\ length added <= 1)
  /\ (NoDup (emails (stored_users s)) ->
      NoDup (emails (stored_users (snd (handleSubmit f s))))).
Proof.
  unfold handleSubmit.
  destruct (negb (Js.truthy (form_email f))
            || negb (Js.truthy (form_password f)));
    [split; [exists []; rewrite app_nil_r; split; [reflexivity | cbn; lia]
            | tauto] |].
  destruct (negb (isLogin f) && negb (Js.truthy (form_name f)));
    [split; [exists []; rewrite app_nil_r; split; [reflexivity | cbn; lia]
            | tauto] |].
  destruct (isLogin f).
  - destruct (find _ (stored_users s));
      (split; [exists []; rewrite app_nil_r; split; [reflexivity | cbn; lia]
              | tauto]).
  - destruct (find (fun u => Text.eqb (email u) (form_email f))
                (stored_users s)) eqn:Hf;
      [split; [exists []; rewrite app_nil_r; split; [reflexivity | cbn; lia]
              | tauto] |].
    cbn [snd stored_users chronicle_users]. split.
    + eexists. split; [reflexivity | cbn; lia].
    + intros Hnd. unfold emails. rewrite map_app. cbn [map email].
      apply NoDup_app; [exact Hnd | repeat constructor; intros [] |].
      intros e Hin [<- | []].
      exact (find_email_none _ _ Hf Hin).
Qed.

Lemma submit_keeps_users_distinct_witness :
  NoDup (emails (stored_users
                   (snd (handleSubmit (mkForm false [97%N] [98%N] [99%N])
                           (mkStore None None))))).
Proof.
  apply (@submit_keeps_users_distinct (mkForm false [97%N] [98%N] [99%N])
           (mkStore None None)).
  constructor.
Defined.

(** X29.  A submit that ends in an error message leaves the storage as
    it is; a login succeeds only for a stored user with the email and
    the password of the form, gives that user's name, stores it as the
    current user and leaves the stored users alone. *)
Theorem login_checks_stored_password f s :
  (forall message,
     fst (handleSubmit f s) = Error message -> snd (handleSubmit f s) = s)
  /\ (forall account,
        isLogin f = true ->
        fst (handleSubmit f s) = LoggedIn account ->
        (exists user,
           In user (stored_users s)
           /\ email user = form_email f
           /\ password user = form_password f
           /\ account = mkAccount (email user) (name user))
        /\ getStoredUser (snd (handleSubmit f s)) = Some account
        /\ chronicle_users (snd (handleSubmit f s)) = chronicle_users s).
Proof.
  unfold handleSubmit.
  destruct (negb (Js.truthy (form_email f))
            || negb (Js.truthy (form_password f)));
    [split; [reflexivity | discriminate] |].
  destruct (negb (isLogin f) && negb (Js.truthy (form_name f)));
    [split; [reflexivity | discriminate] |].
  destruct (isLogin f).
  - destruct (find _ (stored_users s)) as [user |] eqn:Hf;
      (split; [intros m H; try discriminate H; reflexivity |]).
    + intros account _ H. cbn [fst] in H. injection H as <-.
      apply find_some in Hf. destruct Hf as [Hin Hm].
      apply andb_prop in Hm. destruct Hm as [He Hp].
      apply eqb_eq in He, Hp.
      split; [exists user; repeat split; assumption |].
      split; reflexivity.
    + intros account _ H. discriminate H.
  - split; [| intros account H; discriminate H].
    destruct (find _ (stored_users s)); intros m H;
      [reflexivity | discriminate H].
Qed.

Lemma login_checks_stored_password_witness :
  snd (handleSubmit (mkForm true [97%N] [120%N] [])
         (mkStore (Some [mkUser [97%N] [98%N] [99%N]]) None))
  = mkStore (Some [mkUser [97%N] [98%N] [99%N]]) None.
Proof.
  pose proof (@login_checks_stored_password
                (mkForm true [97%N] [120%N] [])
                (mkStore (Some [mkUser [97%N] [98%N] [99%N]]) None)) as H.
  destruct H as [H _].
  apply (H "Invalid email or password"). reflexivity.
Defined.

End AccountProperties.
